(** * Concentration metrics of the restaking research scripts

    A shallow embedding of [calculate_hhi] and [calculate_gini] as they
    appear (twice, verbatim up to layout) in
    [src/mod1_operator_concentration_analysis.py] and
    [src/mod1.5_avs_analysis.py], and the properties the specification
    states about them.

    The code around the two functions is embedded as well:
    [plot_lorenz_curve], [run_analysis] and the summary loop of the
    operator script, and the loop over the services of the AVS script
    with its retry on rate limiting.

    Arithmetic model.  The scripts compute on float64.  Here a finite
    float is an exact rational ([Q], compared with [==]) and the one
    non-finite value the functions themselves produce, [np.nan], is a
    constructor of the result type.  Rounding, overflow and NaN or
    infinite *inputs* are outside the model: every statement below is
    about the exact-arithmetic reading of the code, which is also the
    reading of the specification ("collection of real numbers").

    Module [F64] evaluates the two functions once more, on binary64
    numbers with the machine's rounding.  It is used at concrete inputs
    only, to show where the value the code returns leaves the exact
    one. *)

From Stdlib Require Import PrimFloat.
From Stdlib Require Uint63.
From Stdlib Require Import QArith Qabs ZArith List Bool Lia Lra Psatz.
From Stdlib Require Import Permutation Sorting Orders Mergesort.
From Stdlib Require Import Setoid Morphisms.
From Stdlib Require String Ascii.
Import ListNotations.
Import String.StringSyntax.
Delimit Scope string_scope with string.
Set Warnings "-inexact-float".

Open Scope Q_scope.

(** ** The numpy / pandas primitives the two functions use *)

(** [np.sort] on a float array: ascending by [<=].  The theorems only
    use that the result is an ascending rearrangement of the argument. *)
Module QLeb <: TotalLeBool.
Definition t := Q.
Definition leb := Qle_bool.
Theorem leb_total : forall a1 a2, leb a1 a2 = true \/ leb a2 a1 = true.
Proof.
  intros a1 a2. unfold leb. rewrite !Qle_bool_iff.
  destruct (Qlt_le_dec a1 a2) as [H|H]; [left; apply Qlt_le_weak|right]; exact H.
Qed.
End QLeb.

Module QSort := Sort QLeb.

Module Np.

(** [np.sum(a)], and [Series.sum()] on a series without missing cells.
    The order in which numpy adds the entries is immaterial in exact
    arithmetic. *)
Definition sum (a : list Q) : Q := fold_right Qplus 0 a.

(** [np.sort(a)]. *)
Definition sort (a : list Q) : list Q := QSort.sort a.

(** [np.arange(lo, hi)]: the integers [lo, lo+1, ..., hi-1]. *)
Definition arange (lo hi : Z) : list Z :=
  map (fun k => (lo + Z.of_nat k)%Z) (seq 0 (Z.to_nat (hi - lo))).

(** [ints * floats], element by element, on arrays of one length. *)
Definition mul (ints : list Z) (floats : list Q) : list Q :=
  map (fun p => inject_Z (fst p) * snd p) (combine ints floats).

End Np.

(** ** Results *)

(** What [calculate_gini] hands back: [np.nan] or a finite float. *)
Inductive scalar : Type :=
| nan : scalar
| num : Q -> scalar.

(** Equality of results up to the representation of the rational. *)
Definition scalar_eq (a b : scalar) : Prop :=
  match a, b with
  | nan, nan => True
  | num x, num y => x == y
  | _, _ => False
  end.

Infix "=s=" := scalar_eq (at level 70, no associativity).

(** The three [return] statements of [calculate_gini], in source order. *)
Inductive gini_return : Type :=
| ret_undefined : gini_return          (* line 73: empty or zero-sum input  *)
| ret_safeguard : gini_return          (* line 87: [denominator == 0]       *)
| ret_ratio : Q -> gini_return.        (* line 89: [numerator / denominator] *)

Definition value_of (r : gini_return) : scalar :=
  match r with
  | ret_undefined => nan
  | ret_safeguard => nan
  | ret_ratio q => num q
  end.

(** ** The two functions

    Both divide only behind a test that the divisor is not zero, so the
    convention of [Q] for a division by zero is never used. *)

(** [calculate_hhi(shares)]:
<<
    if shares.sum() == 0:
        return 0
    percentages = (shares / shares.sum()) * 100
    return (percentages**2).sum()
>> *)
Definition calculate_hhi (shares : list Q) : Q :=
  if Qeq_bool (Np.sum shares) 0 then 0
  else
    let percentages := map (fun s => (s / Np.sum shares) * 100) shares in
    Np.sum (map (fun p => p ^ 2) percentages).

(** The mask [arr >= 0] of [arr = arr[arr >= 0]]. *)
Definition ge0 (x : Q) : bool := Qle_bool 0 x.

(** [numerator = np.sum((2 * index - n - 1) * sorted_arr)] with
    [index = np.arange(1, n + 1)]. *)
Definition gini_numerator (n : Z) (sorted_arr : list Q) : Q :=
  let index := Np.arange 1 (n + 1) in
  Np.sum (Np.mul (map (fun i => (2 * i - n - 1)%Z) index) sorted_arr).

(** [denominator = n * np.sum(sorted_arr)]. *)
Definition gini_denominator (n : Z) (sorted_arr : list Q) : Q :=
  inject_Z n * Np.sum sorted_arr.

(** The first test of [calculate_gini], on the filtered array:
    [arr.size == 0 or np.sum(arr) == 0]. *)
Definition gini_guard (arr : list Q) : bool :=
  (length arr =? 0)%nat || Qeq_bool (Np.sum arr) 0.

(** [calculate_gini(arr)], keeping track of the [return] that is taken. *)
Definition calculate_gini_return (arr : list Q) : gini_return :=
  let arr := filter ge0 arr in
  if gini_guard arr then ret_undefined
  else
    let sorted_arr := Np.sort arr in
    let n := Z.of_nat (length sorted_arr) in
    let numerator := gini_numerator n sorted_arr in
    let denominator := gini_denominator n sorted_arr in
    if Qeq_bool denominator 0 then ret_safeguard
    else ret_ratio (numerator / denominator).

Definition calculate_gini (arr : list Q) : scalar :=
  value_of (calculate_gini_return arr).

(** ** The specification's wording, kept apart from the code *)

(** "values strictly less than zero are discarded". *)
Definition negative (x : Q) : bool :=
  match x ?= 0 with
  | Lt => true
  | _ => false
  end.

Definition discard_negative (values : list Q) : list Q :=
  filter (fun x => negb (negative x)) values.

(** "assign 1-based ranks i = 1..n, compute sum((2*i - n - 1) * value_i)":
    [value_i] is the entry at rank [i] of the list as given. *)
Definition rank_sum (values : list Q) : Q :=
  let n := length values in
  Np.sum (map (fun i => inject_Z (2 * Z.of_nat i - Z.of_nat n - 1)
                        * nth (i - 1) values 0)
              (seq 1 n)).

(** "... / (n * sum(values))": [values] are the values that remain,
    [sorted] is their ascending arrangement. *)
Definition rank_estimator (values sorted : list Q) : Q :=
  rank_sum sorted / (inject_Z (Z.of_nat (length values)) * Np.sum values).

(** "normalize each value to a percentage of the total (0-100 scale),
    square each percentage, sum the squares". *)
Definition percentage (total v : Q) : Q := 100 * v / total.

Definition sum_squared_percentages (values : list Q) : Q :=
  Np.sum (map (fun v => percentage (Np.sum values) v ^ 2) values).


(** "Scaling all values by a positive constant". *)
Definition scale (c : Q) (values : list Q) : list Q := map (Qmult c) values.

(** Clamping negatives to zero, the reading the specification rules out
    for [calculate_gini]. *)
Definition clamp_negative (values : list Q) : list Q :=
  map (fun x => if negative x then 0 else x) values.

(** ** Auxiliary quantities used in the proofs *)

(** The rank-weighted sum with the weights written as a recursion:
    [c*x1 + (c+2)*x2 + (c+4)*x3 + ...]. *)
Fixpoint weighted (c : Z) (l : list Q) : Q :=
  match l with
  | [] => 0
  | x :: t => inject_Z c * x + weighted (c + 2) t
  end.

(** Sum of [|x - a|] over a list. *)
Definition gaps (a : Q) (l : list Q) : Q :=
  Np.sum (map (fun x => Qabs (x - a)) l).

(** Sum of the absolute differences over all unordered pairs: the
    order-free form of the Gini numerator. *)
Fixpoint spread (l : list Q) : Q :=
  match l with
  | [] => 0
  | a :: t => gaps a t + spread t
  end.

(** Sum of squares, and sum of the products over all unordered pairs. *)
Definition sumsq (l : list Q) : Q := Np.sum (map (fun x => x * x) l).




(** The size of an array as the float it becomes in [n * sum]. *)
Definition size (l : list Q) : Q := inject_Z (Z.of_nat (length l)).

(** [calculate_gini] as a function of the entries that are kept: the
    pair spread over [n * sum], or nothing. *)
Definition gini_closed (r : list Q) : scalar :=
  if gini_guard r then nan else num (spread r / (size r * Np.sum r)).

(** ** The two functions on binary64

    The same two bodies with the arithmetic of the machine: every
    operation rounds to the nearest binary64 number, a sum that is too
    large becomes infinite, and NaN compares false with everything.
    The entries are added in index order, as numpy and pandas do on
    arrays of fewer than 8 entries; the statements below use such
    arrays only. *)
Module F64.

(** [np.sum(a)] and [Series.sum()]. *)
Definition sum (a : list float) : float :=
  fold_left PrimFloat.add a 0%float.

(** An integer of the index array as the float it is multiplied as. *)
Definition of_int (z : Z) : float :=
  if (z <? 0)%Z then (- PrimFloat.of_uint63 (Uint63.of_Z (- z)))%float
  else PrimFloat.of_uint63 (Uint63.of_Z z).

(** [np.sort(a)] on an array without NaN. *)
Fixpoint insert (x : float) (l : list float) : list float :=
  match l with
  | [] => [x]
  | y :: t => if (x <=? y)%float then x :: l else y :: insert x t
  end.

Definition sort (a : list float) : list float := fold_right insert [] a.

(** [calculate_hhi(shares)]; [p**2] is [p * p]. *)
Definition calculate_hhi (shares : list float) : float :=
  if (sum shares =? 0)%float then 0%float
  else
    let percentages :=
      map (fun s => (s / sum shares * 100)%float) shares in
    sum (map (fun p => (p * p)%float) percentages).

(** [calculate_gini(arr)]. *)
Definition calculate_gini (arr : list float) : float :=
  let arr := filter (fun x => (0 <=? x)%float) arr in
  if (length arr =? 0)%nat || (sum arr =? 0)%float then PrimFloat.nan
  else
    let sorted_arr := sort arr in
    let n := Z.of_nat (length sorted_arr) in
    let index := Np.arange 1 (n + 1) in
    let numerator :=
      sum (map (fun p => (of_int (fst p) * snd p)%float)
               (combine (map (fun i => (2 * i - n - 1)%Z) index)
                        sorted_arr)) in
    let denominator := (of_int n * sum sorted_arr)%float in
    if (denominator =? 0)%float then PrimFloat.nan
    else (numerator / denominator)%float.

(** Every value multiplied by [c]. *)
Definition scale (c : float) (values : list float) : list float :=
  map (fun v => (c * v)%float) values.

End F64.

(** ** The Lorenz curve of [plot_lorenz_curve]

    The function of [src/mod1_operator_concentration_analysis.py] is
    followed up to the two arrays it hands to [ax_lorenz.plot]; drawing
    and saving the figure are left out.  The frame is represented by its
    column ['USD value Delegated']; without missing cells [fillna(0)]
    changes nothing. *)

(** [np.cumsum(a)]: the running sums. *)
Fixpoint cumsum_from (acc : Q) (a : list Q) : list Q :=
  match a with
  | [] => []
  | x :: t => (acc + x) :: cumsum_from (acc + x) t
  end.

Definition cumsum (a : list Q) : list Q := cumsum_from 0 a.

(** The three ways out of [plot_lorenz_curve]. *)
Inductive lorenz_outcome : Type :=
| lorenz_skipped : lorenz_outcome        (* line 96: empty frame or zero total *)
| lorenz_no_operators : lorenz_outcome   (* line 106: [n == 0] *)
| lorenz_plotted : list Q -> list Q -> lorenz_outcome.
                                         (* line 123: the x and y arrays *)

(** [plot_lorenz_curve(df, group_name, output_dir)]:
<<
    if df.empty or df['USD value Delegated'].sum() == 0: return
    values = df['USD value Delegated'].fillna(0).values
    sorted_values = np.sort(values)
    cum_values = np.cumsum(sorted_values)
    n = len(sorted_values)
    if n == 0: return
    cum_op_perc = np.arange(1, n+1) / n
    cum_stake_perc = cum_values / cum_values[-1]
    cum_op_perc = np.insert(cum_op_perc, 0, 0)
    cum_stake_perc = np.insert(cum_stake_perc, 0, 0)
>>
    [cum_values[-1]] is read only when [n] is not 0, so the default of
    [last] is never used. *)
Definition plot_lorenz_curve (column : list Q) : lorenz_outcome :=
  if (length column =? 0)%nat || Qeq_bool (Np.sum column) 0
  then lorenz_skipped
  else
    let values := column in
    let sorted_values := Np.sort values in
    let cum_values := cumsum sorted_values in
    let n := Z.of_nat (length sorted_values) in
    if (n =? 0)%Z then lorenz_no_operators
    else
      let cum_op_perc :=
        map (fun i => inject_Z i / inject_Z n) (Np.arange 1 (n + 1)) in
      let cum_stake_perc :=
        map (fun c => c / last cum_values 0) cum_values in
      lorenz_plotted (0 :: cum_op_perc) (0 :: cum_stake_perc).

(** The x array past its first entry: [(1+start)/N, (2+start)/N, ...]. *)
Definition ticks (N : Q) (start len : nat) : list Q :=
  map (fun i => inject_Z i / N)
      (map (fun k => (1 + Z.of_nat k)%Z) (seq start len)).

(** The total fits a 64-bit number: no sum over the column wraps around
    (an integer column) or becomes infinite (a float column). *)
Definition in_range (column : list Q) : Prop :=
  Np.sum column <= inject_Z (2 ^ 62).

(** ** The analysis of one group: [run_analysis]

    A row of [results_df] has an operator name, the protocol it is
    labelled with and the delegated value.  The function is followed in
    what it computes: the fields of the dictionary it returns, before
    they are formatted into text, the rows it gives to the bar chart and
    the curve it has [plot_lorenz_curve] draw. *)

Record operator_row : Type := {
  operator_name : String.string;
  protocol : String.string;
  usd_value_delegated : Q
}.

Definition frame : Type := list operator_row.

(** [df['USD value Delegated']]. *)
Definition delegated (df : frame) : list Q := map usd_value_delegated df.

(** [df.sort_values(by='USD value Delegated', ascending=False)]: the
    rows by descending value.  The theorems only use that the result is
    a descending rearrangement of the rows. *)
Definition row_geb (r1 r2 : operator_row) : bool :=
  Qle_bool (usd_value_delegated r2) (usd_value_delegated r1).

Lemma row_geb_total r1 r2 : row_geb r1 r2 = true \/ row_geb r2 r1 = true.
Proof.
  unfold row_geb. rewrite !Qle_bool_iff.
  destruct (Qlt_le_dec (usd_value_delegated r1) (usd_value_delegated r2))
    as [H|H]; [right; apply Qlt_le_weak|left]; exact H.
Qed.

Module RowDescending <: TotalLeBool.
Definition t := operator_row.
Definition leb := row_geb.
Definition leb_total := row_geb_total.
End RowDescending.

Module RowSort := Sort RowDescending.

Definition sort_values_descending (df : frame) : frame := RowSort.sort df.

(** Rows by descending value. *)
Definition descending (r1 r2 : operator_row) : Prop :=
  usd_value_delegated r2 <= usd_value_delegated r1.

(** The rows a call works on: those of the protocol when
    [analysis_type] is ['Protocol'], all of them otherwise. *)
Definition select_group (df : frame) (group_name analysis_type : String.string)
  : frame :=
  if String.eqb analysis_type "Protocol"%string
  then filter (fun r => String.eqb (protocol r) group_name) df
  else df.

(** What one call of [run_analysis] produces. *)
Record analysis : Type := {
  group : String.string;              (* "Group" *)
  number_of_operators : nat;          (* "Number of Operators" *)
  total_delegated_usd : Q;            (* "Total Delegated USD" *)
  hhi : Q;                            (* "HHI" *)
  gini_coefficient : scalar;          (* "Gini Coefficient" *)
  bar_chart : frame;                  (* [data_to_plot] *)
  lorenz_curve : lorenz_outcome       (* the call of [plot_lorenz_curve] *)
}.

(** [run_analysis(df, group_name, output_dir, analysis_type)]:
<<
    if analysis_type == 'Protocol':
        protocol_df = df[df['Protocol'] == group_name].copy()
    else:
        protocol_df = df.copy()
    if protocol_df.empty: return None
    num_operators = len(protocol_df)
    total_stake_usd = protocol_df['USD value Delegated'].sum()
    hhi = calculate_hhi(protocol_df['USD value Delegated'])
    gini = calculate_gini(protocol_df['USD value Delegated'].values)
    sorted_protocol_df = protocol_df.sort_values(..., ascending=False)
    if num_operators > 15: data_to_plot = sorted_protocol_df.head(15)
    else:                  data_to_plot = sorted_protocol_df
    ...
    plot_lorenz_curve(protocol_df, group_name, output_dir)
    return {...}
>> *)
Definition run_analysis (df : frame) (group_name analysis_type : String.string)
  : option analysis :=
  let protocol_df := select_group df group_name analysis_type in
  if (length protocol_df =? 0)%nat then None
  else
    let num_operators := length protocol_df in
    let total_stake_usd := Np.sum (delegated protocol_df) in
    let hhi := calculate_hhi (delegated protocol_df) in
    let gini := calculate_gini (delegated protocol_df) in
    let sorted_protocol_df := sort_values_descending protocol_df in
    let data_to_plot :=
      if (15 <? num_operators)%nat then firstn 15 sorted_protocol_df
      else sorted_protocol_df in
    Some {| group := group_name;
            number_of_operators := num_operators;
            total_delegated_usd := total_stake_usd;
            hhi := hhi;
            gini_coefficient := gini;
            bar_chart := data_to_plot;
            lorenz_curve := plot_lorenz_curve (delegated protocol_df) |}.

(** ** The main part of the operator script *)

(** [Series.unique()]: the distinct values in order of first appearance. *)
Fixpoint unique (l : list String.string) : list String.string :=
  match l with
  | [] => []
  | x :: t => x :: filter (fun y => negb (String.eqb y x)) (unique t)
  end.

(** [sorted(...)] on text: ascending, character by character. *)
Module NameOrder <: TotalLeBool.
Definition t := String.string.
Definition leb := String.leb.
Definition leb_total := String.leb_total.
End NameOrder.

Module NameSort := Sort NameOrder.

Definition sorted_names (l : list String.string) : list String.string :=
  NameSort.sort l.

(** One turn of the loop over the protocols. *)
Definition analyse_protocol (results_df : frame) (all_results : list analysis)
           (protocol_name : String.string) : list analysis :=
  if String.eqb protocol_name "Other"%string then all_results
  else
    match run_analysis results_df protocol_name "Protocol"%string with
    | Some result => all_results ++ [result]
    | None => all_results
    end.

(** Section 4 of the script:
<<
    all_results = []
    overall_market_results = run_analysis(results_df, 'Overall Market',
                                          ..., analysis_type='Overall')
    if overall_market_results: all_results.append(overall_market_results)
    protocols_to_analyze = results_df['Protocol'].unique()
    for protocol in sorted(protocols_to_analyze):
        if protocol == 'Other': continue
        result = run_analysis(results_df, protocol, ..., 'Protocol')
        if result: all_results.append(result)
>> *)
Definition all_results (results_df : frame) : list analysis :=
  let all_results := [] in
  let all_results :=
    match run_analysis results_df "Overall Market"%string "Overall"%string with
    | Some overall_market_results => all_results ++ [overall_market_results]
    | None => all_results
    end in
  let protocols_to_analyze := unique (map protocol results_df) in
  fold_left (analyse_protocol results_df)
            (sorted_names protocols_to_analyze) all_results.

(** A small frame used to exercise the statements. *)
Definition sample_frame : frame :=
  [ {| operator_name := "P2P"%string; protocol := "Renzo"%string;
       usd_value_delegated := 300 |};
    {| operator_name := "Figment"%string; protocol := "Other"%string;
       usd_value_delegated := 50 |};
    {| operator_name := "Luganodes"%string; protocol := "Renzo"%string;
       usd_value_delegated := 100 |};
    {| operator_name := "Chorus"%string; protocol := "EtherFi"%string;
       usd_value_delegated := 0 |} ].

(** What one protocol adds to the summary. *)
Definition report (results_df : frame) (protocol_name : String.string)
  : list analysis :=
  analyse_protocol results_df [] protocol_name.

(** Ascending order on names. *)
Definition name_le (a b : String.string) : Prop := String.leb a b = true.

(** The rows labelled with one protocol. *)
Definition rows_of (results_df : frame) (protocol_name : String.string)
  : frame :=
  filter (fun r => String.eqb (protocol r) protocol_name) results_df.

(** ** The loop over the services in [src/mod1.5_avs_analysis.py]

    The Dune client is the outside world: the loop is followed for an
    arbitrary sequence of replies.  [time.sleep] is recorded as seconds
    slept, the printed messages are left out, and the fields of a result
    are kept as numbers, before they are formatted into text. *)

(** The [performance] of a call: the default of the client, or
    ["large"] on the second attempt. *)
Inductive tier : Type :=
| default_tier : tier
| large_tier : tier.

(** What [dune.run_query_dataframe] does: it returns a frame, given
    here by its column ['USD value Delegated'] when it has one, or it
    raises an exception with a message. *)
Inductive reply : Type :=
| fetched : option (list Q) -> reply
| raised : String.string -> reply.

(** One entry of [all_avs_results]. *)
Record avs_result : Type := {
  market : String.string;             (* "Market" *)
  avs_operators : nat;                (* "Number of Operators" *)
  avs_total : Q;                      (* "Total Delegated USD (Proxy)" *)
  avs_hhi : Q;                        (* "HHI (Proxy)" *)
  avs_gini : scalar                   (* "Gini (Proxy)" *)
}.

(** The state the loop carries: the results so far, the seconds slept
    and the number of calls made to the client. *)
Record loop_state : Type := {
  all_avs_results : list avs_result;
  slept : nat;
  calls : nat
}.

Definition initial_state : loop_state :=
  {| all_avs_results := []; slept := 0; calls := 0 |}.

(** ["429" in str(e)]: the text occurs somewhere in the message. *)
Fixpoint contains (needle hay : String.string) : bool :=
  if String.prefix needle hay then true
  else
    match hay with
    | String.EmptyString => false
    | String.String _ rest => contains needle rest
    end.

(** The second [try] of the loop body and the pause after it:
<<
    try:
        avs_df[delegated_col] = pd.to_numeric(avs_df[delegated_col], ...)
        num_operators = len(avs_df)
        total_stake_usd = avs_df[delegated_col].sum()
        hhi = calculate_hhi(avs_df[delegated_col])
        gini = calculate_gini(avs_df[delegated_col].values)
        all_avs_results.append({...})
    except Exception as e:
        print(...)
    time.sleep(3)
>>
    Reading a column the frame does not have raises, and the exception
    is caught. *)
Definition result_of (avs_name : String.string) (column : list Q)
  : avs_result :=
  {| market := avs_name;
     avs_operators := length column;
     avs_total := Np.sum column;
     avs_hhi := calculate_hhi column;
     avs_gini := calculate_gini column |}.

Definition analyse_avs (st : loop_state) (avs_name : String.string)
           (avs_df : option (list Q)) : loop_state :=
  let results :=
    match avs_df with
    | Some column => all_avs_results st ++ [result_of avs_name column]
    | None => all_avs_results st
    end in
  {| all_avs_results := results; slept := slept st + 3; calls := calls st |}.

Definition count_call (st : loop_state) : loop_state :=
  {| all_avs_results := all_avs_results st;
     slept := slept st;
     calls := S (calls st) |}.

Definition sleep (seconds : nat) (st : loop_state) : loop_state :=
  {| all_avs_results := all_avs_results st;
     slept := slept st + seconds;
     calls := calls st |}.

(** The column of a reply that has one. *)
Definition column_of (r : reply) : list Q :=
  match r with
  | fetched (Some column) => column
  | _ => []
  end.

(** In order, with possibly some entries dropped. *)
Inductive subsequence {A : Type} : list A -> list A -> Prop :=
| sub_nil : subsequence [] []
| sub_keep : forall x s l, subsequence s l -> subsequence (x :: s) (x :: l)
| sub_drop : forall x s l, subsequence s l -> subsequence s (x :: l).

Section AvsLoop.

(** The reply to the k-th call, for the given address and tier. *)
Variable dune : nat -> String.string -> tier -> reply.

(** The body of the loop for one service:
<<
    try:
        avs_df = dune.run_query_dataframe(query=query)
    except Exception as e:
        if "429" in str(e):
            time.sleep(10)
            try:
                avs_df = dune.run_query_dataframe(query=query,
                                                  performance="large")
            except Exception as e2:
                continue
        else:
            continue
    ...
>> *)
Definition visit (st : loop_state) (avs : String.string * String.string)
  : loop_state :=
  let avs_name := fst avs in
  let avs_address := snd avs in
  match dune (calls st) avs_address default_tier with
  | fetched avs_df => analyse_avs (count_call st) avs_name avs_df
  | raised e =>
      let st := count_call st in
      if contains "429"%string e then
        let st := sleep 10 st in
        match dune (calls st) avs_address large_tier with
        | fetched avs_df => analyse_avs (count_call st) avs_name avs_df
        | raised e2 => count_call st
        end
      else st
  end.

(** [for avs_name, avs_address in AVS_TO_ANALYZE.items(): ...] *)
Definition avs_loop (avs_to_analyze : list (String.string * String.string))
  : loop_state :=
  fold_left visit avs_to_analyze initial_state.

End AvsLoop.

(** The result expected for the k-th service when its first call is
    answered with a frame. *)
Definition first_reply_result (dune : nat -> String.string -> tier -> reply)
           (p : nat * (String.string * String.string)) : avs_result :=
  result_of (fst (snd p))
            (column_of (dune (fst p) (snd (snd p)) default_tier)).

(** Two services and three replies used to exercise the statements. *)
Definition sample_services : list (String.string * String.string) :=
  [ ("EigenDA", "0x8706"); ("Eoracle", "0x2322") ]%string.

Definition always_frame (k : nat) (address : String.string) (t : tier)
  : reply := fetched (Some [inject_Z (Z.of_nat k) + 1; 3]).

Definition always_down (k : nat) (address : String.string) (t : tier)
  : reply := raised "503 Service Unavailable"%string.

Definition always_limited (k : nat) (address : String.string) (t : tier)
  : reply := raised "HTTP 429 Too Many Requests"%string.

(** * Properties *)

(** ** The worked scenario of the specification *)

Example hhi_scenario : calculate_hhi [500; 300; 100; 100] == 3600.
Proof. vm_compute. reflexivity. Qed.

Example gini_scenario : calculate_gini [500; 300; 100; 100] =s= num (35 # 100).
Proof. vm_compute. reflexivity. Qed.

Example hhi_single : calculate_hhi [100] == 10000.
Proof. vm_compute. reflexivity. Qed.

Example hhi_two_equal : calculate_hhi [50; 50] == 5000.
Proof. vm_compute. reflexivity. Qed.

Example gini_empty : calculate_gini [] = nan.
Proof. reflexivity. Qed.

Example gini_all_negative : calculate_gini [-1; -2] = nan.
Proof. reflexivity. Qed.

(** ** Sums *)

Lemma sum_cons a l : Np.sum (a :: l) = a + Np.sum l.
Proof. reflexivity. Qed.

Lemma sum_ext (f g : Q -> Q) l :
  (forall x, f x == g x) -> Np.sum (map f l) == Np.sum (map g l).
Proof.
  intros E. induction l as [|a l IH]; simpl; [reflexivity|].
  rewrite IH, (E a). reflexivity.
Qed.

Lemma sum_perm l l' : Permutation l l' -> Np.sum l == Np.sum l'.
Proof.
  induction 1 as [|x l l' _ IH|x y l|l l' l'' _ IH1 _ IH2]; simpl.
  - reflexivity.
  - rewrite IH. reflexivity.
  - ring.
  - rewrite IH1. exact IH2.
Qed.


Lemma sum_nonneg l : Forall (fun x => 0 <= x) l -> 0 <= Np.sum l.
Proof.
  induction 1 as [|a l Ha _ IH]; simpl; lra.
Qed.


Lemma sum_all_zero l : Forall (fun x => x == 0) l -> Np.sum l == 0.
Proof.
  induction 1 as [|a l Ha _ IH]; simpl; lra.
Qed.

Lemma size_cons a l : size (a :: l) == 1 + size l.
Proof.
  unfold size. cbn [length]. rewrite Nat2Z.inj_succ, <- Z.add_1_l, inject_Z_plus.
  reflexivity.
Qed.

Lemma size_nil : size [] = 0.
Proof. reflexivity. Qed.

Lemma size_nonneg l : 0 <= size l.
Proof.
  unfold size. change 0 with (inject_Z 0). rewrite <- Zle_Qle. lia.
Qed.

Lemma size_pos l : l <> [] -> 1 <= size l.
Proof.
  destruct l as [|a l]; [congruence|]. intros _.
  rewrite size_cons. pose proof (size_nonneg l). lra.
Qed.

(** ** [calculate_hhi] in closed form *)

Lemma sumsq_cons a l : sumsq (a :: l) == a * a + sumsq l.
Proof. reflexivity. Qed.

Lemma squared_percentages T l :
  ~ T == 0 ->
  Np.sum (map (fun p => p ^ 2) (map (fun s => s / T * 100) l))
  == 10000 * sumsq l / (T * T).
Proof.
  intros HT. induction l as [|a l IH].
  - unfold sumsq. cbn [map Np.sum fold_right]. field. exact HT.
  - cbn [map]. rewrite sum_cons, IH, sumsq_cons.
    change ((a / T * 100) ^ 2) with ((a / T * 100) * (a / T * 100)).
    field. exact HT.
Qed.

Lemma hhi_nonzero_total shares :
  ~ Np.sum shares == 0 ->
  calculate_hhi shares
  == 10000 * sumsq shares / (Np.sum shares * Np.sum shares).
Proof.
  intros HT. unfold calculate_hhi.
  destruct (Qeq_bool (Np.sum shares) 0) eqn:E.
  - apply Qeq_bool_iff in E. contradiction.
  - apply squared_percentages. exact HT.
Qed.

Lemma hhi_zero_total shares :
  Np.sum shares == 0 -> calculate_hhi shares = 0.
Proof.
  intros HT. unfold calculate_hhi.
  apply Qeq_bool_iff in HT. rewrite HT. reflexivity.
Qed.


Lemma sumsq_nonneg l : 0 <= sumsq l.
Proof.
  induction l as [|a l IH].
  - unfold sumsq. simpl. lra.
  - rewrite sumsq_cons. nra.
Qed.








(** ** The Gini numerator *)

Lemma arange_ranks n :
  Np.arange 1 (Z.of_nat n + 1) = map (fun k => (1 + Z.of_nat k)%Z) (seq 0 n).
Proof.
  unfold Np.arange. replace (Z.of_nat n + 1 - 1)%Z with (Z.of_nat n) by lia.
  rewrite Nat2Z.id. reflexivity.
Qed.

Lemma rank_weights m l : forall start,
  Np.sum (Np.mul (map (fun i => (2 * i - m - 1)%Z)
                      (map (fun k => (1 + Z.of_nat k)%Z)
                           (seq start (length l)))) l)
  = weighted (2 * (1 + Z.of_nat start) - m - 1) l.
Proof.
  induction l as [|x t IH]; intros start.
  - reflexivity.
  - cbn [length seq map Np.mul combine fst snd weighted]. rewrite sum_cons.
    unfold Np.mul in IH. rewrite IH. do 2 f_equal. lia.
Qed.

Lemma numerator_weighted l :
  gini_numerator (Z.of_nat (length l)) l
  = weighted (1 - Z.of_nat (length l)) l.
Proof.
  unfold gini_numerator. rewrite arange_ranks, rank_weights.
  f_equal. lia.
Qed.

Lemma weighted_shift d l : forall c,
  weighted (c + d) l == weighted c l + inject_Z d * Np.sum l.
Proof.
  induction l as [|x t IH]; intros c.
  - simpl. ring.
  - cbn [weighted]. rewrite sum_cons.
    replace (c + d + 2)%Z with (c + 2 + d)%Z by lia.
    rewrite IH, inject_Z_plus. ring.
Qed.

Lemma gaps_cons a x l : gaps a (x :: l) = Qabs (x - a) + gaps a l.
Proof. reflexivity. Qed.

Lemma gaps_nil a : gaps a [] = 0.
Proof. reflexivity. Qed.

Lemma gaps_above a l :
  Forall (fun x => a <= x) l -> gaps a l == Np.sum l - size l * a.
Proof.
  induction 1 as [|x l Hx _ IH].
  - rewrite gaps_nil, size_nil. cbn [Np.sum fold_right]. ring.
  - rewrite gaps_cons, sum_cons, size_cons, IH.
    rewrite Qabs_pos by lra. ring.
Qed.


Lemma gaps_perm a l l' : Permutation l l' -> gaps a l == gaps a l'.
Proof.
  intros P. unfold gaps. apply sum_perm, Permutation_map, P.
Qed.




(** On an ascending list the rank-weighted sum is the sum of all
    pairwise gaps. *)
Lemma weighted_spread l :
  StronglySorted Qle l ->
  weighted (1 - Z.of_nat (length l)) l == spread l.
Proof.
  induction 1 as [|a t _ IH Ha].
  - reflexivity.
  - cbn [length weighted spread].
    replace (1 - Z.of_nat (S (length t)) + 2)%Z
      with (1 - Z.of_nat (length t) + 1)%Z by lia.
    rewrite weighted_shift, IH, (gaps_above a t Ha).
    replace (1 - Z.of_nat (S (length t)))%Z
      with (- Z.of_nat (length t))%Z by lia.
    rewrite inject_Z_opp. unfold size. ring.
Qed.

Lemma spread_perm l l' : Permutation l l' -> spread l == spread l'.
Proof.
  induction 1 as [|x l l' P IH|x y l|l l' l'' _ IH1 _ IH2].
  - reflexivity.
  - cbn [spread]. rewrite IH, (gaps_perm x l l' P). reflexivity.
  - cbn [spread]. rewrite !gaps_cons, (Qabs_Qminus y x). ring.
  - rewrite IH1. exact IH2.
Qed.





(** The rank sum written with 1-based ranks and indexing is the same
    weighted sum. *)
Lemma sum_ext_in (f g : nat -> Q) l :
  (forall i, In i l -> f i == g i) -> Np.sum (map f l) == Np.sum (map g l).
Proof.
  induction l as [|a l IH]; intros E; [reflexivity|].
  cbn [map]. rewrite !sum_cons, IH, (E a).
  - reflexivity.
  - left. reflexivity.
  - intros i Hi. apply E. right. exact Hi.
Qed.

Lemma indexed_weighted s : forall c,
  Np.sum (map (fun i => inject_Z (c + 2 * Z.of_nat i) * nth (i - 1) s 0)
              (seq 1 (length s)))
  == weighted (c + 2) s.
Proof.
  induction s as [|a t IH]; intros c.
  - reflexivity.
  - cbn [length seq map weighted]. rewrite sum_cons.
    rewrite <- seq_shift, map_map, <- (IH (c + 2)%Z).
    apply Qplus_comp.
    + cbn [Nat.sub nth]. replace (c + 2 * Z.of_nat 1)%Z with (c + 2)%Z by lia.
      reflexivity.
    + apply sum_ext_in. intros i Hi. apply in_seq in Hi.
      replace (c + 2 * Z.of_nat (S i))%Z with (c + 2 + 2 * Z.of_nat i)%Z by lia.
      destruct i as [|j]; [lia|].
      cbn [Nat.sub nth]. rewrite Nat.sub_0_r. reflexivity.
Qed.

Lemma rank_sum_weighted s :
  rank_sum s == weighted (1 - Z.of_nat (length s)) s.
Proof.
  unfold rank_sum.
  replace (1 - Z.of_nat (length s))%Z
    with (- Z.of_nat (length s) - 1 + 2)%Z by lia.
  rewrite <- indexed_weighted. apply sum_ext_in. intros i _.
  replace (2 * Z.of_nat i - Z.of_nat (length s) - 1)%Z
    with (- Z.of_nat (length s) - 1 + 2 * Z.of_nat i)%Z by lia.
  reflexivity.
Qed.

(** ** Sorting and filtering *)

Lemma sort_perm l : Permutation l (Np.sort l).
Proof. apply QSort.Permuted_sort. Qed.

Lemma sort_length l : length (Np.sort l) = length l.
Proof. symmetry. apply Permutation_length, sort_perm. Qed.

Lemma sort_ascending l : StronglySorted Qle (Np.sort l).
Proof.
  assert (Transitive (fun x y => is_true (QLeb.leb x y))) as T.
  { intros x y z. unfold is_true, QLeb.leb. rewrite !Qle_bool_iff.
    apply Qle_trans. }
  pose proof (QSort.StronglySorted_sort l T) as S. fold (Np.sort l) in S.
  induction S as [|a t _ IH Ha]; constructor.
  - exact IH.
  - eapply Forall_impl; [|exact Ha]. cbv beta. intros x Hx.
    apply Qle_bool_iff. exact Hx.
Qed.

Lemma ascending_strongly s : Sorted Qle s -> StronglySorted Qle s.
Proof.
  apply Sorted_StronglySorted. intros x y z. apply Qle_trans.
Qed.

Lemma ge0_iff x : ge0 x = true <-> 0 <= x.
Proof. apply Qle_bool_iff. Qed.

Lemma negative_iff x : negative x = true <-> x < 0.
Proof.
  unfold negative. rewrite Qlt_alt.
  destruct (x ?= 0); split; congruence.
Qed.

(** Keeping the entries [>= 0] is discarding the entries [< 0]. *)
Lemma keep_is_discard l : filter ge0 l = discard_negative l.
Proof.
  apply filter_ext. intros x.
  destruct (negative x) eqn:N, (ge0 x) eqn:G; try reflexivity.
  - apply negative_iff in N. apply ge0_iff in G. lra.
  - exfalso. destruct (Qlt_le_dec x 0) as [H|H].
    + apply negative_iff in H. congruence.
    + apply ge0_iff in H. congruence.
Qed.

Lemma kept_nonneg l : Forall (fun x => 0 <= x) (filter ge0 l).
Proof.
  apply Forall_forall. intros x Hx. apply filter_In in Hx.
  apply ge0_iff, Hx.
Qed.

Lemma kept_all l : Forall (fun x => 0 <= x) l -> filter ge0 l = l.
Proof.
  induction 1 as [|a l Ha _ IH]; [reflexivity|].
  cbn [filter]. apply ge0_iff in Ha. rewrite Ha, IH. reflexivity.
Qed.

Lemma kept_perm l l' :
  Permutation l l' -> Permutation (filter ge0 l) (filter ge0 l').
Proof.
  induction 1 as [|x l l' _ IH|x y l|l l' l'' _ IH1 _ IH2]; cbn [filter].
  - constructor.
  - destruct (ge0 x); [constructor|]; exact IH.
  - destruct (ge0 x), (ge0 y); try reflexivity. constructor.
  - eapply Permutation_trans; eassumption.
Qed.


(** ** The shape of [calculate_gini] *)

Lemma guard_true_iff r :
  gini_guard r = true <-> r = [] \/ Np.sum r == 0.
Proof.
  unfold gini_guard. rewrite orb_true_iff, Nat.eqb_eq, Qeq_bool_iff.
  rewrite length_zero_iff_nil. reflexivity.
Qed.

Lemma guard_false_iff r :
  gini_guard r = false <-> r <> [] /\ ~ Np.sum r == 0.
Proof.
  rewrite <- not_true_iff_false, guard_true_iff. tauto.
Qed.

(** Past the guard the denominator is strictly positive, the third
    [return] is taken, and the ratio is the pair spread over [n * sum]. *)
Lemma gini_past_guard arr :
  let r := filter ge0 arr in
  gini_guard r = false ->
  0 < gini_denominator (Z.of_nat (length (Np.sort r))) (Np.sort r) /\
  exists q,
    calculate_gini_return arr = ret_ratio q /\
    q == spread r / (size r * Np.sum r) /\
    0 < size r * Np.sum r.
Proof.
  intros r G. pose proof G as G'. apply guard_false_iff in G' as [Hne Hs].
  pose proof (sum_nonneg r (kept_nonneg arr)) as Hs0. fold r in Hs0.
  pose proof (size_pos r Hne) as Hn.
  assert (0 < size r * Np.sum r) as Hd by nra.
  assert (gini_denominator (Z.of_nat (length (Np.sort r))) (Np.sort r)
          == size r * Np.sum r) as Ed.
  { unfold gini_denominator. rewrite sort_length.
    rewrite <- (sum_perm _ _ (sort_perm r)). reflexivity. }
  split; [rewrite Ed; exact Hd|].
  unfold calculate_gini_return. fold r. rewrite G.
  destruct (Qeq_bool _ 0) eqn:E.
  - apply Qeq_bool_iff in E. rewrite Ed in E. lra.
  - eexists. split; [reflexivity|]. split; [|exact Hd].
    rewrite Ed, numerator_weighted, (weighted_spread _ (sort_ascending r)).
    rewrite <- (spread_perm _ _ (sort_perm r)). reflexivity.
Qed.

Lemma gini_at_guard arr :
  gini_guard (filter ge0 arr) = true ->
  calculate_gini_return arr = ret_undefined.
Proof.
  intros G. unfold calculate_gini_return. rewrite G. reflexivity.
Qed.

(** ** Results up to the representation of rationals *)

Lemma scalar_eq_refl a : a =s= a.
Proof. destruct a; simpl; [exact I|reflexivity]. Qed.

Lemma scalar_eq_sym a b : a =s= b -> b =s= a.
Proof. destruct a, b; simpl; auto. intros E. symmetry. exact E. Qed.

Lemma scalar_eq_trans a b c : a =s= b -> b =s= c -> a =s= c.
Proof.
  destruct a, b, c; simpl; try tauto. intros E1 E2. rewrite E1. exact E2.
Qed.

Lemma gini_closed_form arr :
  calculate_gini arr =s= gini_closed (filter ge0 arr).
Proof.
  unfold gini_closed, calculate_gini.
  destruct (gini_guard (filter ge0 arr)) eqn:G.
  - rewrite (gini_at_guard arr G). exact I.
  - destruct (gini_past_guard arr G) as (_ & q & -> & E & _). exact E.
Qed.

Lemma gini_closed_perm r r' :
  Permutation r r' -> gini_closed r =s= gini_closed r'.
Proof.
  intros P. unfold gini_closed, gini_guard, size.
  rewrite (Permutation_length P).
  assert (Qeq_bool (Np.sum r) 0 = Qeq_bool (Np.sum r') 0) as ->.
  { pose proof (sum_perm r r' P) as E.
    destruct (Qeq_bool (Np.sum r') 0) eqn:B.
    - apply Qeq_bool_iff. apply Qeq_bool_iff in B. lra.
    - destruct (Qeq_bool (Np.sum r) 0) eqn:B'; [|reflexivity].
      apply Qeq_bool_iff in B'. apply Qeq_bool_neq in B. lra. }
  destruct (_ || _); [exact I|]. simpl.
  rewrite (spread_perm r r' P), (sum_perm r r' P). reflexivity.
Qed.





(** With a total that is not zero, of either sign, the index is the sum
    of the squared percentages of all the entries. *)
Lemma hhi_as_percentages shares :
  ~ Np.sum shares == 0 ->
  calculate_hhi shares == sum_squared_percentages shares.
Proof.
  intros Hs. unfold calculate_hhi, sum_squared_percentages.
  destruct (Qeq_bool (Np.sum shares) 0) eqn:E.
  - apply Qeq_bool_iff in E. contradiction.
  - cbv zeta. rewrite map_map. apply sum_ext. intros x.
    unfold percentage.
    change (?a ^ 2) with (a * a). unfold Qdiv. ring.
Qed.

(** * The claims of the specification *)

(** ** C1: the rank-based estimator *)

(** C1.  When the values that remain after discarding the negative ones
    are non-empty with positive sum, [calculate_gini] returns the
    rank-based estimator: for the ascending arrangement [sorted] of the
    remaining values, the sum over ranks i = 1..n of
    (2*i - n - 1) * value_i, divided by n * sum(values). *)
Theorem gini_rank_estimator (arr sorted : list Q) :
  discard_negative arr <> [] ->
  0 < Np.sum (discard_negative arr) ->
  Permutation (discard_negative arr) sorted ->
  Sorted Qle sorted ->
  calculate_gini arr =s= num (rank_estimator (discard_negative arr) sorted).
Proof.
  rewrite <- keep_is_discard. intros Hne Hs P S.
  assert (gini_guard (filter ge0 arr) = false) as G.
  { apply guard_false_iff. split; [exact Hne|lra]. }
  eapply scalar_eq_trans; [apply gini_closed_form|].
  unfold gini_closed. rewrite G. simpl. unfold rank_estimator. fold (size (filter ge0 arr)).
  rewrite rank_sum_weighted, (weighted_spread _ (ascending_strongly _ S)).
  rewrite (spread_perm _ _ P). reflexivity.
Qed.

Lemma gini_rank_estimator_witness :
  discard_negative [500; -7; 300; 100; 100] <> [] /\
  0 < Np.sum (discard_negative [500; -7; 300; 100; 100]) /\
  Permutation (discard_negative [500; -7; 300; 100; 100])
              [100; 100; 300; 500] /\
  Sorted Qle [100; 100; 300; 500] /\
  calculate_gini [500; -7; 300; 100; 100]
  =s= num (rank_estimator (discard_negative [500; -7; 300; 100; 100])
                          [100; 100; 300; 500]).
Proof.
  assert (discard_negative [500; -7; 300; 100; 100] <> []) as H1
      by discriminate.
  assert (0 < Np.sum (discard_negative [500; -7; 300; 100; 100])) as H2
      by reflexivity.
  assert (Permutation (discard_negative [500; -7; 300; 100; 100])
                      [100; 100; 300; 500]) as H3
      by exact (Permutation_rev [500; 300; 100; 100]).
  assert (Sorted Qle [100; 100; 300; 500]) as H4
      by (repeat constructor; discriminate).
  split; [exact H1|]. split; [exact H2|]. split; [exact H3|].
  split; [exact H4|].
  exact (gini_rank_estimator _ _ H1 H2 H3 H4).
Defined.

(** ** C2: the Herfindahl-Hirschman index *)

(** C2.  When the total is strictly positive, [calculate_hhi] returns the
    sum over the values of (100 * value / total)^2. *)
Theorem hhi_sum_squared_percentages (shares : list Q) :
  0 < Np.sum shares ->
  calculate_hhi shares == sum_squared_percentages shares.
Proof.
  intros Hs. apply hhi_as_percentages. lra.
Qed.

Lemma hhi_sum_squared_percentages_witness :
  0 < Np.sum [500; 300; 100; 100] /\
  calculate_hhi [500; 300; 100; 100]
  == sum_squared_percentages [500; 300; 100; 100].
Proof.
  assert (0 < Np.sum [500; 300; 100; 100]) as H by reflexivity.
  split; [exact H|].
  exact (hhi_sum_squared_percentages _ H).
Defined.

(** ** C3: range of the index *)




(** ** C4: range of the Gini coefficient *)




(** ** C5: the degenerate case of the index *)

(** C5.  When the total is exactly zero, as for the empty collection and
    for collections of zeros, [calculate_hhi] returns 0. *)
Theorem hhi_zero_sum (shares : list Q) :
  shares = [] \/ Forall (fun x => x == 0) shares \/ Np.sum shares == 0 ->
  calculate_hhi shares = 0.
Proof.
  intros H. apply hhi_zero_total.
  destruct H as [->|[H|H]].
  - reflexivity.
  - apply sum_all_zero. exact H.
  - exact H.
Qed.

Lemma hhi_zero_sum_witness :
  ([0; 0; 0] = [] \/ Forall (fun x => x == 0) [0; 0; 0] \/
   Np.sum [0; 0; 0] == 0) /\
  calculate_hhi [0; 0; 0] = 0.
Proof.
  assert ([0; 0; 0] = [] \/ Forall (fun x => x == 0) [0; 0; 0] \/
          Np.sum [0; 0; 0] == 0) as H
      by (right; left; repeat constructor).
  split; [exact H|].
  exact (hhi_zero_sum _ H).
Defined.

(** ** C6: the undefined Gini coefficient *)

(** C6.  [calculate_gini] works on the values that are left when those
    strictly below zero are discarded; when nothing is left, or what is
    left sums to zero, it returns the NaN sentinel, not zero. *)
Theorem gini_undefined (arr : list Q) :
  calculate_gini arr = calculate_gini (discard_negative arr) /\
  (discard_negative arr = [] \/ Np.sum (discard_negative arr) == 0 ->
   calculate_gini arr = nan /\ ~ calculate_gini arr =s= num 0).
Proof.
  split.
  - unfold calculate_gini, calculate_gini_return.
    rewrite <- keep_is_discard.
    rewrite (kept_all (filter ge0 arr) (kept_nonneg arr)). reflexivity.
  - rewrite <- keep_is_discard. intros H. apply guard_true_iff in H.
    unfold calculate_gini. rewrite (gini_at_guard arr H).
    split; [reflexivity|]. simpl. tauto.
Qed.

Lemma gini_undefined_witness :
  (discard_negative [-3; 0; -1] = [] \/
   Np.sum (discard_negative [-3; 0; -1]) == 0) /\
  calculate_gini [-3; 0; -1] = nan /\
  ~ calculate_gini [-3; 0; -1] =s= num 0.
Proof.
  assert (discard_negative [-3; 0; -1] = [] \/
          Np.sum (discard_negative [-3; 0; -1]) == 0) as H
      by (right; reflexivity).
  split; [exact H|].
  exact (proj2 (gini_undefined [-3; 0; -1]) H).
Defined.

(** Discarding is not clamping: with the negative entry set to zero the
    coefficient is another one. *)
Example gini_discard_not_clamp :
  calculate_gini [-1; 1] =s= num 0 /\
  calculate_gini (clamp_negative [-1; 1]) =s= num (1 # 2).
Proof. split; vm_compute; reflexivity. Qed.

(** ** C7: negative values and the index *)

(** C7 (the code departs from it).  [calculate_hhi] on 3 and -1: the
    total is 2, the percentages are 150 and -50, the index is 25000;
    without the negative value it is 10000. *)
Lemma hhi_keeps_negative :
  calculate_hhi [3; -1] == 25000 /\
  calculate_hhi (discard_negative [3; -1]) == 10000 /\
  ~ calculate_hhi [3; -1] == calculate_hhi (discard_negative [3; -1]).
Proof.
  split; [vm_compute; reflexivity|].
  split; [vm_compute; reflexivity|].
  vm_compute. discriminate.
Qed.

(** The same on binary64, where every step is exact, and
    [calculate_gini] on the same values, which sets the negative one
    aside. *)
Example hhi_float_keeps_negative :
  F64.calculate_hhi [3; -1]%float = 25000%float /\
  F64.calculate_hhi [3]%float = 10000%float /\
  F64.calculate_gini [3; -1]%float = F64.calculate_gini [3]%float.
Proof. repeat split; vm_compute; reflexivity. Qed.

(** ** C8: scale invariance *)




(** ** C9: order independence *)

(** C9.  [calculate_gini] gives the same result on every rearrangement
    of its input. *)
Theorem gini_permutation_invariant (arr arr' : list Q) :
  Permutation arr arr' ->
  calculate_gini arr =s= calculate_gini arr'.
Proof.
  intros P.
  eapply scalar_eq_trans; [apply gini_closed_form|].
  eapply scalar_eq_trans; [|apply scalar_eq_sym, gini_closed_form].
  apply gini_closed_perm, kept_perm, P.
Qed.

Lemma gini_permutation_invariant_witness :
  Permutation [500; 300; 100; 100] [100; 100; 300; 500] /\
  calculate_gini [500; 300; 100; 100]
  =s= calculate_gini [100; 100; 300; 500].
Proof.
  assert (Permutation [500; 300; 100; 100] [100; 100; 300; 500]) as H
      by exact (Permutation_rev [500; 300; 100; 100]).
  split; [exact H|].
  exact (gini_permutation_invariant _ _ H).
Defined.

(** ** C10: the safeguard on the denominator *)

(** C10.  Past the first test (the kept array is non-empty and its sum
    is not zero) the denominator n * sum is not zero, so the second
    [return np.nan] is never taken. *)
Theorem gini_safeguard_unreachable (arr : list Q) :
  let kept := filter ge0 arr in
  let sorted_arr := Np.sort kept in
  let n := Z.of_nat (length sorted_arr) in
  (kept <> [] -> ~ Np.sum kept == 0 ->
   ~ gini_denominator n sorted_arr == 0) /\
  calculate_gini_return arr <> ret_safeguard.
Proof.
  intros kept sorted_arr n. split.
  - intros Hne Hs.
    assert (gini_guard kept = false) as G
        by (apply guard_false_iff; split; assumption).
    destruct (gini_past_guard arr G) as (Hd & _).
    fold kept in Hd. fold sorted_arr in Hd. fold n in Hd. lra.
  - destruct (gini_guard kept) eqn:G.
    + rewrite (gini_at_guard arr G). discriminate.
    + destruct (gini_past_guard arr G) as (_ & q & -> & _). discriminate.
Qed.

Lemma gini_safeguard_unreachable_witness :
  filter ge0 [2; -1; 6] <> [] /\
  ~ Np.sum (filter ge0 [2; -1; 6]) == 0 /\
  ~ gini_denominator (Z.of_nat (length (Np.sort (filter ge0 [2; -1; 6]))))
                     (Np.sort (filter ge0 [2; -1; 6])) == 0.
Proof.
  assert (filter ge0 [2; -1; 6] <> []) as H1 by discriminate.
  assert (~ Np.sum (filter ge0 [2; -1; 6]) == 0) as H2 by discriminate.
  split; [exact H1|]. split; [exact H2|].
  exact (proj1 (gini_safeguard_unreachable [2; -1; 6]) H1 H2).
Defined.

(** * Further properties of the scripts *)

(** ** The Lorenz curve *)

Lemma last_cons_default (a d : Q) l : last (a :: l) d = last l a.
Proof.
  revert a d. induction l as [|b l IH]; intros a d; [reflexivity|].
  change (last (a :: b :: l) d) with (last (b :: l) d).
  rewrite (IH b d), (IH b a). reflexivity.
Qed.

Lemma last_map_default (f : Q -> Q) l d d' :
  l <> [] -> last (map f l) d = f (last l d').
Proof.
  induction l as [|a l IH]; [congruence|]. intros _.
  destruct l as [|b l]; [reflexivity|].
  change (last (map f (a :: b :: l)) d) with (last (map f (b :: l)) d).
  change (last (a :: b :: l) d') with (last (b :: l) d').
  apply IH. discriminate.
Qed.

Lemma cumsum_from_length l : forall acc,
  length (cumsum_from acc l) = length l.
Proof.
  induction l as [|x t IH]; intros acc; [reflexivity|].
  cbn [cumsum_from length]. rewrite IH. reflexivity.
Qed.

Lemma cumsum_from_last l : forall acc,
  last (cumsum_from acc l) acc == acc + Np.sum l.
Proof.
  induction l as [|x t IH]; intros acc.
  - simpl. ring.
  - cbn [cumsum_from]. rewrite last_cons_default, IH, sum_cons. ring.
Qed.

Lemma ticks_length N start len : length (ticks N start len) = len.
Proof. unfold ticks. rewrite !length_map, length_seq. reflexivity. Qed.

Lemma ticks_cons N start len :
  ticks N start (S len)
  = inject_Z (1 + Z.of_nat start) / N :: ticks N (S start) len.
Proof. reflexivity. Qed.

Lemma frac_le a b c d :
  0 < b -> 0 < d -> a * d <= c * b -> a / b <= c / d.
Proof.
  intros Hb Hd H. apply Qle_shift_div_r; [exact Hb|].
  setoid_replace (c / d * b) with (c * b / d) by (field; lra).
  apply Qle_shift_div_l; assumption.
Qed.

Lemma frac_lt a b d : 0 < d -> a < b -> a / d < b / d.
Proof.
  intros Hd H. apply Qlt_shift_div_l; [exact Hd|].
  setoid_replace (a / d * d) with a by (field; lra). exact H.
Qed.

(** The shape of the two arrays once the curve is drawn. *)
Lemma lorenz_shape column :
  column <> [] -> ~ Np.sum column == 0 ->
  exists L,
    L == Np.sum column /\
    plot_lorenz_curve column
    = lorenz_plotted
        (0 :: ticks (size column) 0 (length column))
        (0 :: map (fun c => c / L) (cumsum_from 0 (Np.sort column))).
Proof.
  intros Hne Hs. exists (last (cumsum (Np.sort column)) 0). split.
  - unfold cumsum. rewrite cumsum_from_last.
    rewrite <- (sum_perm _ _ (sort_perm column)). ring.
  - unfold plot_lorenz_curve.
    destruct (_ || _) eqn:G.
    + apply guard_true_iff in G. tauto.
    + rewrite sort_length.
      destruct (Z.of_nat (length column) =? 0)%Z eqn:Z0.
      * apply Z.eqb_eq in Z0. destruct column; [congruence|discriminate].
      * rewrite arange_ranks. reflexivity.
Qed.

Lemma lorenz_plotted_inv column xs ys :
  plot_lorenz_curve column = lorenz_plotted xs ys ->
  column <> [] /\ ~ Np.sum column == 0.
Proof.
  unfold plot_lorenz_curve. destruct (_ || _) eqn:G; [discriminate|].
  intros _. apply guard_false_iff. exact G.
Qed.

Lemma ticks_increasing N len : forall start x0,
  0 < N -> x0 < inject_Z (1 + Z.of_nat start) / N ->
  Sorted Qlt (x0 :: ticks N start len).
Proof.
  induction len as [|len IH]; intros start x0 HN H0.
  - repeat constructor.
  - rewrite ticks_cons. constructor; [|constructor; exact H0].
    apply IH; [exact HN|]. apply frac_lt; [exact HN|].
    rewrite <- Zlt_Qlt. lia.
Qed.

Lemma shares_increasing L t : forall acc y0,
  0 < L -> Forall (fun x => 0 <= x) t -> y0 <= acc / L ->
  Sorted Qle (y0 :: map (fun c => c / L) (cumsum_from acc t)).
Proof.
  induction t as [|a t IH]; intros acc y0 HL Ht H0.
  - repeat constructor.
  - inversion Ht as [|? ? Ha Ht']; subst. cbn [cumsum_from map].
    assert (acc / L <= (acc + a) / L) as Hstep.
    { apply frac_le; try exact HL. nra. }
    constructor.
    + apply IH; [exact HL|exact Ht'|lra].
    + constructor. lra.
Qed.

(** X1.  [plot_lorenz_curve] draws nothing exactly when the group has no row
    or a zero total; otherwise it draws n+1 points, and its second
    early return ([n == 0]) is never taken. *)
Theorem lorenz_outcomes (column : list Q) :
  (column = [] \/ Np.sum column == 0 ->
   plot_lorenz_curve column = lorenz_skipped) /\
  (column <> [] -> ~ Np.sum column == 0 ->
   exists xs ys,
     plot_lorenz_curve column = lorenz_plotted xs ys /\
     length xs = S (length column) /\ length ys = S (length column)) /\
  plot_lorenz_curve column <> lorenz_no_operators.
Proof.
  assert (column <> [] -> ~ Np.sum column == 0 ->
          exists xs ys,
            plot_lorenz_curve column = lorenz_plotted xs ys /\
            length xs = S (length column) /\
            length ys = S (length column)) as P.
  { intros Hne Hs. destruct (lorenz_shape column Hne Hs) as (L & _ & E).
    eexists. eexists. split; [exact E|]. cbn [length].
    rewrite ticks_length, length_map, cumsum_from_length, sort_length.
    split; reflexivity. }
  split; [|split; [exact P|]].
  - intros H. apply guard_true_iff in H. unfold plot_lorenz_curve.
    unfold gini_guard in H. rewrite H. reflexivity.
  - destruct (gini_guard column) eqn:G.
    + unfold plot_lorenz_curve. unfold gini_guard in G. rewrite G.
      discriminate.
    + apply guard_false_iff in G as [Hne Hs].
      destruct (P Hne Hs) as (xs & ys & -> & _). discriminate.
Qed.

Lemma lorenz_outcomes_witness :
  [1; 3] <> [] /\ ~ Np.sum [1; 3] == 0 /\
  exists xs ys,
    plot_lorenz_curve [1; 3] = lorenz_plotted xs ys /\
    length xs = 3%nat /\ length ys = 3%nat.
Proof.
  assert ([1; 3] <> []) as H1 by discriminate.
  assert (~ Np.sum [1; 3] == 0) as H2 by discriminate.
  split; [exact H1|]. split; [exact H2|].
  exact (proj1 (proj2 (lorenz_outcomes [1; 3])) H1 H2).
Defined.

(** X2.  On non-negative stakes whose total is in range, a drawn curve
    starts at (0, 0) and ends at (1, 1). *)
Theorem lorenz_endpoints (column xs ys : list Q) :
  Forall (fun x => 0 <= x) column -> in_range column ->
  plot_lorenz_curve column = lorenz_plotted xs ys ->
  (exists xs' ys', xs = 0 :: xs' /\ ys = 0 :: ys') /\
  last xs 0 == 1 /\ last ys 0 == 1.
Proof.
  intros _ _ Hp. destruct (lorenz_plotted_inv _ _ _ Hp) as [Hne Hs].
  destruct (lorenz_shape column Hne Hs) as (L & EL & E).
  rewrite E in Hp. injection Hp as <- <-.
  split; [eexists; eexists; split; reflexivity|].
  rewrite !last_cons_default. split.
  - destruct column as [|a column] using rev_ind; [congruence|].
    rewrite length_app. cbn [length]. rewrite Nat.add_1_r.
    unfold ticks. rewrite seq_S, !map_app. cbn [map].
    rewrite last_last. unfold size.
    rewrite length_app. cbn [length]. rewrite Nat.add_1_r.
    replace (1 + Z.of_nat (0 + length column))%Z
      with (Z.of_nat (S (length column))) by lia.
    field. change 0 with (inject_Z 0). rewrite inject_Z_injective. lia.
  - assert (cumsum_from 0 (Np.sort column) <> []) as Hc.
    { intros K. apply (f_equal (@length Q)) in K.
      rewrite cumsum_from_length, sort_length in K.
      destruct column; [congruence|discriminate]. }
    rewrite (last_map_default _ _ 0 0 Hc), cumsum_from_last.
    rewrite <- (sum_perm _ _ (sort_perm column)), EL. field.
    intros K. apply Hs. lra.
Qed.

Lemma lorenz_endpoints_witness :
  Forall (fun x => 0 <= x) [1; 3] /\ in_range [1; 3] /\
  plot_lorenz_curve [1; 3] = lorenz_plotted [0; 1 / 2; 2 / 2] [0; 1 / 4; 4 / 4]
  /\ (exists xs' ys', [0; 1 / 2; 2 / 2] = 0 :: xs' /\
                      [0; 1 / 4; 4 / 4] = 0 :: ys') /\
  last [0; 1 / 2; 2 / 2] 0 == 1 /\ last [0; 1 / 4; 4 / 4] 0 == 1.
Proof.
  assert (Forall (fun x => 0 <= x) [1; 3]) as H0
      by (repeat constructor; discriminate).
  assert (in_range [1; 3]) as H1 by (vm_compute; discriminate).
  assert (plot_lorenz_curve [1; 3]
          = lorenz_plotted [0; 1 / 2; 2 / 2] [0; 1 / 4; 4 / 4]) as H
      by (vm_compute; reflexivity).
  split; [exact H0|]. split; [exact H1|]. split; [exact H|].
  exact (lorenz_endpoints _ _ _ H0 H1 H).
Defined.

(** X3.  On non-negative stakes whose total is in range, the x array of
    a drawn curve is strictly increasing and the y array is
    non-decreasing. *)
Theorem lorenz_monotone (column xs ys : list Q) :
  Forall (fun x => 0 <= x) column -> in_range column ->
  plot_lorenz_curve column = lorenz_plotted xs ys ->
  Sorted Qlt xs /\ Sorted Qle ys.
Proof.
  intros Hnn _ Hp. destruct (lorenz_plotted_inv _ _ _ Hp) as [Hne Hs].
  destruct (lorenz_shape column Hne Hs) as (L & EL & E).
  rewrite E in Hp. injection Hp as <- <-.
  pose proof (size_pos column Hne) as HN.
  pose proof (sum_nonneg column Hnn) as H0.
  split.
  - apply ticks_increasing; [lra|].
    apply Qlt_shift_div_l; [lra|].
    change (inject_Z (1 + Z.of_nat 0)) with 1. lra.
  - apply shares_increasing.
    + lra.
    + apply (Permutation_Forall (sort_perm column)). exact Hnn.
    + unfold Qdiv. rewrite Qmult_0_l. lra.
Qed.

Lemma lorenz_monotone_witness :
  Forall (fun x => 0 <= x) [1; 3] /\ in_range [1; 3] /\
  plot_lorenz_curve [1; 3] = lorenz_plotted [0; 1 / 2; 2 / 2] [0; 1 / 4; 4 / 4]
  /\ Sorted Qlt [0; 1 / 2; 2 / 2] /\ Sorted Qle [0; 1 / 4; 4 / 4].
Proof.
  assert (Forall (fun x => 0 <= x) [1; 3]) as H0
      by (repeat constructor; discriminate).
  assert (in_range [1; 3]) as H1 by (vm_compute; discriminate).
  assert (plot_lorenz_curve [1; 3]
          = lorenz_plotted [0; 1 / 2; 2 / 2] [0; 1 / 4; 4 / 4]) as H
      by (vm_compute; reflexivity).
  split; [exact H0|]. split; [exact H1|]. split; [exact H|].
  exact (lorenz_monotone _ _ _ H0 H1 H).
Defined.

(** ** The analysis of one group *)

Section SortedLists.
Variable A : Type.
Variable R : A -> A -> Prop.

Lemma strongly_sorted_app_l (p t : list A) :
  StronglySorted R (p ++ t) -> StronglySorted R p.
Proof.
  induction p as [|a p IH]; intros H; [constructor|].
  cbn [app] in H. inversion H as [|? ? H' Ha]; subst. constructor.
  - apply IH, H'.
  - apply Forall_app in Ha. apply Ha.
Qed.

Lemma strongly_sorted_app_r (p t : list A) :
  StronglySorted R (p ++ t) -> StronglySorted R t.
Proof.
  induction p as [|a p IH]; intros H; [exact H|].
  cbn [app] in H. inversion H; subst. apply IH. assumption.
Qed.

Lemma strongly_sorted_across (p t : list A) x y :
  StronglySorted R (p ++ t) -> In x p -> In y t -> R x y.
Proof.
  induction p as [|a p IH]; intros H Hx Hy; [contradiction|].
  cbn [app] in H. inversion H as [|? ? H' Ha]; subst.
  destruct Hx as [->|Hx].
  - rewrite Forall_forall in Ha. apply Ha, in_or_app. right. exact Hy.
  - exact (IH H' Hx Hy).
Qed.

Lemma strongly_sorted_filter (f : A -> bool) (l : list A) :
  StronglySorted R l -> StronglySorted R (filter f l).
Proof.
  induction 1 as [|a l _ IH Ha]; cbn [filter]; [constructor|].
  destruct (f a); [|exact IH]. constructor; [exact IH|].
  rewrite Forall_forall in *. intros x Hx. apply filter_In in Hx.
  apply Ha, Hx.
Qed.

End SortedLists.

Lemma sort_values_perm df : Permutation df (sort_values_descending df).
Proof. apply RowSort.Permuted_sort. Qed.

Lemma sort_values_sorted df :
  StronglySorted descending (sort_values_descending df).
Proof.
  assert (Transitive (fun x y => is_true (RowDescending.leb x y))) as T.
  { intros x y z. unfold is_true, RowDescending.leb, row_geb.
    rewrite !Qle_bool_iff. intros H1 H2. eapply Qle_trans; eassumption. }
  pose proof (RowSort.StronglySorted_sort df T) as S.
  fold (sort_values_descending df) in S.
  induction S as [|a t _ IH Ha]; constructor.
  - exact IH.
  - eapply Forall_impl; [|exact Ha]. cbv beta. intros x Hx.
    apply Qle_bool_iff. exact Hx.
Qed.

Lemma run_analysis_some df g t a :
  run_analysis df g t = Some a ->
  select_group df g t <> [] /\
  group a = g /\
  number_of_operators a = length (select_group df g t) /\
  total_delegated_usd a = Np.sum (delegated (select_group df g t)) /\
  hhi a = calculate_hhi (delegated (select_group df g t)) /\
  gini_coefficient a = calculate_gini (delegated (select_group df g t)) /\
  bar_chart a = firstn 15 (sort_values_descending (select_group df g t)) /\
  lorenz_curve a = plot_lorenz_curve (delegated (select_group df g t)).
Proof.
  unfold run_analysis.
  destruct (length (select_group df g t) =? 0)%nat eqn:E; [discriminate|].
  intros H. injection H as <-.
  cbv [group number_of_operators total_delegated_usd hhi gini_coefficient
       bar_chart lorenz_curve].
  apply Nat.eqb_neq in E.
  split; [intros K; rewrite K in E; apply E; reflexivity|].
  repeat (split; [reflexivity|]). split; [|reflexivity].
  destruct (15 <? length (select_group df g t))%nat eqn:L; [reflexivity|].
  apply Nat.ltb_ge in L. symmetry. apply firstn_all2.
  rewrite <- (Permutation_length (sort_values_perm _)). exact L.
Qed.

(** X9.  [run_analysis] returns nothing exactly when no row is selected: in
    the ['Protocol'] mode when no row carries the protocol, otherwise
    when the frame has no row.  A result counts at least one operator
    and carries the name of the group. *)
Theorem run_analysis_outcome (df : frame) (g t : String.string) :
  (run_analysis df g t = None <->
   if String.eqb t "Protocol"%string
   then forall r, In r df -> protocol r <> g
   else df = []) /\
  (forall a, run_analysis df g t = Some a ->
             group a = g /\ (1 <= number_of_operators a)%nat).
Proof.
  split.
  - unfold run_analysis, select_group.
    destruct (String.eqb t "Protocol"%string).
    + destruct (filter _ df) as [|r0 l] eqn:F; cbn [length Nat.eqb].
      * split; [intros _|reflexivity]. intros r Hr E.
        assert (In r (filter (fun r => String.eqb (protocol r) g) df)) as K
            by (apply filter_In; split; [exact Hr|apply String.eqb_eq, E]).
        rewrite F in K. exact K.
      * split; [discriminate|]. intros H. exfalso.
        assert (In r0 (filter (fun r => String.eqb (protocol r) g) df)) as K
            by (rewrite F; left; reflexivity).
        apply filter_In in K as [K1 K2]. apply String.eqb_eq in K2.
        exact (H r0 K1 K2).
    + destruct df as [|r0 l]; cbn [length Nat.eqb].
      * split; reflexivity.
      * split; discriminate.
  - intros a H. apply run_analysis_some in H as (Hne & Hg & Hn & _).
    split; [exact Hg|]. rewrite Hn.
    destruct (select_group df g t); [congruence|cbn; lia].
Qed.

(** X10.  The bar chart shows the largest stakes of the group: at most 15
    rows, by descending value, and no row left out has more than a row
    shown. *)
Theorem bar_chart_largest (df : frame) (g t : String.string) (a : analysis) :
  run_analysis df g t = Some a ->
  length (bar_chart a) = Nat.min 15 (number_of_operators a) /\
  StronglySorted descending (bar_chart a) /\
  exists left_out,
    Permutation (bar_chart a ++ left_out) (select_group df g t) /\
    forall shown hidden,
      In shown (bar_chart a) -> In hidden left_out ->
      usd_value_delegated hidden <= usd_value_delegated shown.
Proof.
  intros H. apply run_analysis_some in H as (_ & _ & Hn & _ & _ & _ & Hb & _).
  rewrite Hb, Hn.
  set (rows := select_group df g t).
  pose proof (sort_values_sorted rows) as S.
  pose proof (sort_values_perm rows) as P.
  rewrite <- (firstn_skipn 15 (sort_values_descending rows)) in S.
  split; [|split].
  - rewrite length_firstn, <- (Permutation_length P). reflexivity.
  - exact (strongly_sorted_app_l _ _ _ _ S).
  - exists (skipn 15 (sort_values_descending rows)). split.
    + rewrite firstn_skipn. symmetry. exact P.
    + intros shown hidden Hs Hh.
      exact (strongly_sorted_across _ _ _ _ _ _ S Hs Hh).
Qed.

Lemma run_analysis_outcome_witness :
  run_analysis sample_frame "Renzo"%string "Protocol"%string
  = Some {| group := "Renzo"%string;
            number_of_operators := 2;
            total_delegated_usd := Np.sum [300; 100];
            hhi := calculate_hhi [300; 100];
            gini_coefficient := calculate_gini [300; 100];
            bar_chart := select_group sample_frame "Renzo"%string
                                      "Protocol"%string;
            lorenz_curve := plot_lorenz_curve [300; 100] |} /\
  "Renzo"%string = "Renzo"%string /\ (1 <= 2)%nat.
Proof.
  assert (run_analysis sample_frame "Renzo"%string "Protocol"%string
          = Some {| group := "Renzo"%string;
                    number_of_operators := 2;
                    total_delegated_usd := Np.sum [300; 100];
                    hhi := calculate_hhi [300; 100];
                    gini_coefficient := calculate_gini [300; 100];
                    bar_chart := select_group sample_frame "Renzo"%string
                                              "Protocol"%string;
                    lorenz_curve := plot_lorenz_curve [300; 100] |}) as H
      by (vm_compute; reflexivity).
  split; [exact H|].
  exact (proj2 (run_analysis_outcome sample_frame "Renzo"%string
                                     "Protocol"%string) _ H).
Defined.

Lemma bar_chart_largest_witness :
  exists a,
    run_analysis sample_frame "Overall Market"%string "Overall"%string
    = Some a /\
    length (bar_chart a) = Nat.min 15 (number_of_operators a) /\
    StronglySorted descending (bar_chart a) /\
    exists left_out,
      Permutation (bar_chart a ++ left_out)
                  (select_group sample_frame "Overall Market"%string
                                "Overall"%string) /\
      forall shown hidden,
        In shown (bar_chart a) -> In hidden left_out ->
        usd_value_delegated hidden <= usd_value_delegated shown.
Proof.
  destruct (run_analysis sample_frame "Overall Market"%string
                         "Overall"%string) as [a|] eqn:H.
  - exists a. split; [reflexivity|].
    exact (bar_chart_largest _ _ _ _ H).
  - vm_compute in H. discriminate H.
Defined.

Lemma select_group_incl df g t r :
  In r (select_group df g t) -> In r df.
Proof.
  unfold select_group. destruct (String.eqb t "Protocol"%string).
  - intros H. apply filter_In in H. apply H.
  - auto.
Qed.

Lemma sumsq_zero l : sumsq l == 0 -> Np.sum l == 0.
Proof.
  induction l as [|a l IH]; [reflexivity|].
  rewrite sumsq_cons, sum_cons. intros E.
  pose proof (sumsq_nonneg l) as H0.
  assert (0 <= a * a) as H1 by nra.
  assert (a * a == 0) as Ha by lra.
  assert (a == 0) as -> by nra.
  rewrite IH by lra. ring.
Qed.

Lemma hhi_positive shares :
  ~ Np.sum shares == 0 -> 0 < calculate_hhi shares.
Proof.
  intros Hs.
  pose proof (hhi_nonzero_total shares Hs) as E.
  pose proof (sumsq_nonneg shares) as Q0.
  assert (~ sumsq shares == 0) as Q1
      by (intros K; apply Hs, sumsq_zero, K).
  set (S2 := Np.sum shares * Np.sum shares) in *.
  assert (0 < S2) as HS2 by (unfold S2; nra).
  rewrite E. apply Qlt_shift_div_l; [exact HS2|]. lra.
Qed.

Lemma lorenz_skipped_iff column :
  plot_lorenz_curve column = lorenz_skipped
  <-> column = [] \/ Np.sum column == 0.
Proof.
  rewrite <- guard_true_iff. unfold plot_lorenz_curve, gini_guard.
  destruct (_ || _); [split; reflexivity|].
  split; [|discriminate].
  destruct (_ =? 0)%Z; discriminate.
Qed.

Lemma gini_nan_iff column :
  Forall (fun x => 0 <= x) column ->
  (calculate_gini column = nan <-> column = [] \/ Np.sum column == 0).
Proof.
  intros Hnn. rewrite <- guard_true_iff.
  pose proof (gini_closed_form column) as E.
  rewrite (kept_all column Hnn) in E. unfold gini_closed in E.
  destruct (gini_guard column).
  - destruct (calculate_gini column); [split; reflexivity|contradiction].
  - destruct (calculate_gini column); [contradiction|split; discriminate].
Qed.

(** X11.  A group of non-negative stakes whose total is in range has no
    stake at all exactly when its index is 0, exactly when its Gini
    coefficient is NaN, and exactly when no Lorenz curve is drawn for
    it. *)
Theorem degenerate_outcomes_agree (df : frame) (g t : String.string)
        (a : analysis) :
  Forall (fun r => 0 <= usd_value_delegated r) df ->
  in_range (delegated df) ->
  run_analysis df g t = Some a ->
  (total_delegated_usd a == 0 <-> hhi a == 0) /\
  (total_delegated_usd a == 0 <-> gini_coefficient a = nan) /\
  (total_delegated_usd a == 0 <-> lorenz_curve a = lorenz_skipped).
Proof.
  intros Hnn _ H.
  apply run_analysis_some in H as (Hne & _ & _ & -> & -> & -> & _ & ->).
  set (rows := select_group df g t) in *.
  assert (Forall (fun x => 0 <= x) (delegated rows)) as Hcol.
  { unfold delegated. apply Forall_map, Forall_forall. intros r Hr.
    rewrite Forall_forall in Hnn. apply Hnn.
    exact (select_group_incl _ _ _ _ Hr). }
  assert (delegated rows <> []) as Hc.
  { unfold delegated. destruct rows; [congruence|discriminate]. }
  split; [|split].
  - split.
    + intros Z. rewrite (hhi_zero_total _ Z). reflexivity.
    + intros Z. destruct (Qeq_dec (Np.sum (delegated rows)) 0) as [K|K];
        [exact K|].
      pose proof (hhi_positive _ K). lra.
  - rewrite (gini_nan_iff _ Hcol). tauto.
  - rewrite lorenz_skipped_iff. tauto.
Qed.

Lemma degenerate_outcomes_agree_witness :
  exists a,
    Forall (fun r => 0 <= usd_value_delegated r) sample_frame /\
    in_range (delegated sample_frame) /\
    run_analysis sample_frame "EtherFi"%string "Protocol"%string = Some a /\
    (total_delegated_usd a == 0 <-> hhi a == 0) /\
    (total_delegated_usd a == 0 <-> gini_coefficient a = nan) /\
    (total_delegated_usd a == 0 <-> lorenz_curve a = lorenz_skipped).
Proof.
  assert (Forall (fun r => 0 <= usd_value_delegated r) sample_frame) as H0
      by (repeat constructor; discriminate).
  assert (in_range (delegated sample_frame)) as H1
      by (vm_compute; discriminate).
  destruct (run_analysis sample_frame "EtherFi"%string "Protocol"%string)
    as [a|] eqn:H.
  - exists a. split; [exact H0|]. split; [exact H1|]. split; [reflexivity|].
    exact (degenerate_outcomes_agree _ _ _ _ H0 H1 H).
  - vm_compute in H. discriminate H.
Defined.

(** ** The summary of the operator script *)

Lemma name_compare_trans x : forall y z,
  String.compare x y <> Gt -> String.compare y z <> Gt ->
  String.compare x z <> Gt.
Proof.
  induction x as [|a x IH]; intros [|b y] [|c z]; cbn [String.compare];
    try congruence.
  unfold Ascii.compare.
  destruct (N.compare_spec (Ascii.N_of_ascii a) (Ascii.N_of_ascii b)) as [E1|E1|E1];
    destruct (N.compare_spec (Ascii.N_of_ascii b) (Ascii.N_of_ascii c)) as [E2|E2|E2];
    destruct (N.compare_spec (Ascii.N_of_ascii a) (Ascii.N_of_ascii c)) as [E3|E3|E3];
    try congruence; try lia.
  apply IH.
Qed.

Lemma name_le_trans : Transitive name_le.
Proof.
  intros x y z. unfold name_le, String.leb. intros H1 H2.
  pose proof (name_compare_trans x y z) as T.
  destruct (String.compare x y); destruct (String.compare y z);
    destruct (String.compare x z); try discriminate; try reflexivity;
    exfalso; apply T; congruence.
Qed.

Lemma sorted_names_perm l : Permutation l (sorted_names l).
Proof. apply NameSort.Permuted_sort. Qed.

Lemma sorted_names_sorted l : StronglySorted name_le (sorted_names l).
Proof.
  assert (Transitive (fun x y => is_true (NameOrder.leb x y))) as T
      by exact name_le_trans.
  exact (NameSort.StronglySorted_sort l T).
Qed.

Lemma unique_In x l : In x (unique l) <-> In x l.
Proof.
  induction l as [|a l IH]; [reflexivity|].
  cbn [unique]. split.
  - intros [->|H]; [left; reflexivity|].
    apply filter_In in H as [H _]. right. apply IH, H.
  - intros [->|H]; [left; reflexivity|].
    destruct (String.eqb_spec x a) as [->|N]; [left; reflexivity|].
    right. apply filter_In. split; [apply IH, H|].
    apply negb_true_iff, String.eqb_neq, N.
Qed.

Lemma unique_NoDup l : NoDup (unique l).
Proof.
  induction l as [|a l IH]; [constructor|].
  cbn [unique]. constructor.
  - intros H. apply filter_In in H as [_ H].
    rewrite String.eqb_refl in H. discriminate.
  - apply NoDup_filter, IH.
Qed.

Lemma fold_left_reports df ks : forall acc,
  fold_left (analyse_protocol df) ks acc = acc ++ flat_map (report df) ks.
Proof.
  induction ks as [|k ks IH]; intros acc.
  - cbn. rewrite app_nil_r. reflexivity.
  - cbn [fold_left flat_map]. rewrite IH, app_assoc. f_equal.
    unfold report, analyse_protocol.
    destruct (String.eqb k "Other"%string); [rewrite app_nil_r; reflexivity|].
    destruct (run_analysis df k "Protocol"%string);
      [reflexivity|rewrite app_nil_r; reflexivity].
Qed.

Lemma select_protocol df p :
  select_group df p "Protocol"%string = rows_of df p.
Proof. reflexivity. Qed.

(** A protocol that labels a row always gets its line. *)
Lemma report_present df p :
  p <> "Other"%string -> (exists r, In r df /\ protocol r = p) ->
  exists a,
    report df p = [a] /\ group a = p /\
    number_of_operators a = length (rows_of df p) /\
    total_delegated_usd a = Np.sum (delegated (rows_of df p)).
Proof.
  intros Hp (r & Hr & E).
  unfold report, analyse_protocol.
  apply String.eqb_neq in Hp. rewrite Hp.
  destruct (run_analysis df p "Protocol"%string) as [a|] eqn:R.
  - exists a. split; [reflexivity|].
    apply run_analysis_some in R as (_ & G & N & T & _).
    rewrite select_protocol in N, T. auto.
  - exfalso. unfold run_analysis in R. rewrite select_protocol in R.
    assert (In r (rows_of df p)) as K
        by (apply filter_In; split; [exact Hr|apply String.eqb_eq, E]).
    destruct (rows_of df p); [exact K|discriminate].
Qed.

Lemma report_other df : report df "Other"%string = [].
Proof. reflexivity. Qed.

Section SumsOverKeys.
Variable K : Type.

Lemma list_sum_cons (a : nat) l : list_sum (a :: l) = (a + list_sum l)%nat.
Proof. reflexivity. Qed.

Lemma list_sum_map_plus (f g : K -> nat) ks :
  list_sum (map (fun k => f k + g k)%nat ks)
  = (list_sum (map f ks) + list_sum (map g ks))%nat.
Proof.
  induction ks as [|k ks IH]; [reflexivity|].
  cbn [map]. rewrite !list_sum_cons, IH. lia.
Qed.

End SumsOverKeys.

Lemma indicator_count q ks :
  NoDup ks -> In q ks ->
  list_sum (map (fun p => if String.eqb q p then 1 else 0)%nat ks) = 1%nat.
Proof.
  induction 1 as [|k ks Hk _ IH]; [contradiction|].
  cbn [map]. rewrite list_sum_cons. intros [->|Hq].
  - rewrite String.eqb_refl.
    assert (list_sum (map (fun p => if String.eqb q p then 1 else 0)%nat ks)
            = 0%nat) as ->; [|reflexivity].
    clear IH. induction ks as [|k ks IHk]; [reflexivity|].
    cbn [map]. rewrite list_sum_cons.
    destruct (String.eqb_spec q k) as [->|N];
      [exfalso; apply Hk; left; reflexivity|].
    apply IHk. intros H. apply Hk. right. exact H.
  - destruct (String.eqb_spec q k) as [->|N]; [contradiction|].
    rewrite (IH Hq). reflexivity.
Qed.

Lemma rows_of_cons r df p :
  rows_of (r :: df) p
  = if String.eqb (protocol r) p then r :: rows_of df p else rows_of df p.
Proof. reflexivity. Qed.

(** Distinct labels that cover the rows split them: every row is in
    the group of exactly one label. *)
Lemma partition_count ks df :
  NoDup ks -> (forall r, In r df -> In (protocol r) ks) ->
  list_sum (map (fun p => length (rows_of df p)) ks) = length df.
Proof.
  intros ND. induction df as [|r df IH]; intros C.
  - clear. induction ks as [|k ks IHk]; [reflexivity|].
    cbn [map]. rewrite list_sum_cons, IHk. reflexivity.
  - rewrite (map_ext _ (fun p => ((if String.eqb (protocol r) p then 1 else 0)
                                  + length (rows_of df p))%nat)).
    + rewrite (list_sum_map_plus _
                 (fun p => if String.eqb (protocol r) p then 1 else 0)%nat
                 (fun p => length (rows_of df p))).
      rewrite indicator_count, IH.
      * reflexivity.
      * intros r' Hr'. apply C. right. exact Hr'.
      * exact ND.
      * apply C. left. reflexivity.
    + intros p. rewrite rows_of_cons.
      destruct (String.eqb (protocol r) p); reflexivity.
Qed.

Lemma reports_of_present df ks :
  (forall p, In p ks -> exists r, In r df /\ protocol r = p) ->
  let names := filter (fun p => negb (String.eqb p "Other"%string)) ks in
  map group (flat_map (report df) ks) = names /\
  map number_of_operators (flat_map (report df) ks)
  = map (fun p => length (rows_of df p)) names /\
  map total_delegated_usd (flat_map (report df) ks)
  = map (fun p => Np.sum (delegated (rows_of df p))) names.
Proof.
  induction ks as [|k ks IH]; intros C; [repeat split|].
  assert (forall p, In p ks -> exists r, In r df /\ protocol r = p) as C'
      by (intros p Hp; apply C; right; exact Hp).
  destruct (IH C') as (I1 & I2 & I3). clear IH.
  cbn [flat_map filter]. rewrite !map_app.
  destruct (String.eqb_spec k "Other"%string) as [->|N]; cbn [negb].
  - rewrite report_other. cbn [map app]. repeat split; assumption.
  - destruct (report_present df k N (C k (or_introl eq_refl)))
      as (a & -> & G & Hn & Ht).
    cbn [map app]. rewrite G, Hn, Ht, I1, I2, I3. repeat split.
Qed.

Lemma overall_present df :
  df <> [] ->
  exists a,
    run_analysis df "Overall Market"%string "Overall"%string = Some a /\
    group a = "Overall Market"%string /\
    number_of_operators a = length df /\
    total_delegated_usd a = Np.sum (delegated df).
Proof.
  intros Hne.
  destruct (run_analysis df "Overall Market"%string "Overall"%string)
    as [a|] eqn:R.
  - exists a. split; [reflexivity|].
    apply run_analysis_some in R as (_ & G & N & T & _). auto.
  - exfalso. unfold run_analysis in R.
    change (select_group df "Overall Market"%string "Overall"%string)
      with df in R.
    destruct df; [congruence|discriminate].
Qed.

Lemma all_results_shape df :
  df <> [] ->
  exists overall,
    run_analysis df "Overall Market"%string "Overall"%string = Some overall /\
    all_results df
    = overall :: flat_map (report df)
                          (sorted_names (unique (map protocol df))).
Proof.
  intros Hne. destruct (overall_present df Hne) as (a & R & _).
  exists a. split; [exact R|].
  unfold all_results. rewrite R, fold_left_reports. reflexivity.
Qed.

Lemma labels_present df p :
  In p (sorted_names (unique (map protocol df))) <->
  exists r, In r df /\ protocol r = p.
Proof.
  rewrite <- (Permutation_in' (eq_refl p) (sorted_names_perm _)).
  rewrite unique_In, in_map_iff.
  split; intros (r & H1 & H2); exists r; auto.
Qed.

(** X12.  The summary of a frame with rows starts with the overall market and
    goes on with one line for each protocol that labels a row, except
    ['Other'], by ascending name and without repetition; no such
    protocol is left out.  A frame without rows gives an empty summary. *)
Theorem summary_lines (df : frame) :
  (df = [] -> all_results df = []) /\
  (df <> [] ->
   exists names,
     map group (all_results df) = "Overall Market"%string :: names /\
     StronglySorted name_le names /\ NoDup names /\
     forall p, In p names <->
               p <> "Other"%string /\ exists r, In r df /\ protocol r = p).
Proof.
  split; [intros ->; reflexivity|].
  intros Hne.
  destruct (all_results_shape df Hne) as (a & R & ->).
  destruct (overall_present df Hne) as (a' & R' & G & _).
  rewrite R in R'. injection R' as <-.
  set (ks := sorted_names (unique (map protocol df))).
  assert (forall p, In p ks -> exists r, In r df /\ protocol r = p) as C
      by (intros p Hp; apply labels_present; exact Hp).
  destruct (reports_of_present df ks C) as (E & _).
  exists (filter (fun p => negb (String.eqb p "Other"%string)) ks).
  cbn [map]. rewrite G, E. split; [reflexivity|]. split; [|split].
  - apply strongly_sorted_filter, sorted_names_sorted.
  - apply NoDup_filter.
    apply (Permutation_NoDup (sorted_names_perm _)), unique_NoDup.
  - intros p. rewrite filter_In, negb_true_iff, String.eqb_neq.
    unfold ks. rewrite labels_present. tauto.
Qed.

Lemma summary_lines_witness :
  sample_frame <> [] /\
  exists names,
    map group (all_results sample_frame) = "Overall Market"%string :: names /\
    StronglySorted name_le names /\ NoDup names /\
    forall p, In p names <->
              p <> "Other"%string /\
              exists r, In r sample_frame /\ protocol r = p.
Proof.
  assert (sample_frame <> []) as H by discriminate.
  split; [exact H|].
  exact (proj2 (summary_lines sample_frame) H).
Defined.

(** X13.  Every operator is counted once: the number of operators of
    the overall line is that of the protocol lines together with the
    rows labelled ['Other']. *)
Theorem summary_accounts (df : frame) :
  df <> [] ->
  exists overall per_protocol,
    all_results df = overall :: per_protocol /\
    number_of_operators overall
    = (list_sum (map number_of_operators per_protocol)
       + length (rows_of df "Other"%string))%nat.
Proof.
  intros Hne.
  destruct (all_results_shape df Hne) as (a & R & E).
  destruct (overall_present df Hne) as (a' & R' & _ & Hn & _).
  rewrite R in R'. injection R' as <-.
  set (ks := sorted_names (unique (map protocol df))) in *.
  assert (forall p, In p ks -> exists r, In r df /\ protocol r = p) as C
      by (intros p Hp; apply labels_present; exact Hp).
  destruct (reports_of_present df ks C) as (_ & En & _).
  set (names := filter (fun p => negb (String.eqb p "Other"%string)) ks) in *.
  assert (NoDup ("Other"%string :: names)) as ND.
  { constructor.
    - unfold names. rewrite filter_In, negb_true_iff, String.eqb_neq. tauto.
    - apply NoDup_filter.
      apply (Permutation_NoDup (sorted_names_perm _)), unique_NoDup. }
  assert (forall r, In r df -> In (protocol r) ("Other"%string :: names))
    as Cov.
  { intros r Hr.
    destruct (String.eqb_spec (protocol r) "Other"%string) as [->|N];
      [left; reflexivity|right].
    unfold names. rewrite filter_In, negb_true_iff, String.eqb_neq.
    split; [|exact N]. apply labels_present. exists r. auto. }
  exists a, (flat_map (report df) ks). split; [exact E|].
  rewrite Hn, En, <- (partition_count _ df ND Cov).
  cbn [map]. rewrite list_sum_cons. lia.
Qed.

Lemma summary_accounts_witness :
  sample_frame <> [] /\
  exists overall per_protocol,
    all_results sample_frame = overall :: per_protocol /\
    number_of_operators overall
    = (list_sum (map number_of_operators per_protocol)
       + length (rows_of sample_frame "Other"%string))%nat.
Proof.
  assert (sample_frame <> []) as H by discriminate.
  split; [exact H|].
  exact (summary_accounts sample_frame H).
Defined.

Example summary_of_sample :
  map group (all_results sample_frame)
  = ["Overall Market"; "EtherFi"; "Renzo"]%string.
Proof. vm_compute. reflexivity. Qed.

(** ** The loop over the services *)

Section AvsLoopFacts.
Variable dune : nat -> String.string -> tier -> reply.

(** What one turn of the loop does to the state: one call or two, a
    pause of 10 seconds for a second call, a pause of 3 seconds after a
    reply with a frame, at most one result. *)
Lemma visit_step st avs :
  exists (retried got : nat) (added : list avs_result),
    (retried <= 1)%nat /\ (got <= 1)%nat /\ (length added <= got)%nat /\
    calls (visit dune st avs) = (calls st + 1 + retried)%nat /\
    slept (visit dune st avs) = (slept st + 10 * retried + 3 * got)%nat /\
    all_avs_results (visit dune st avs) = all_avs_results st ++ added /\
    subsequence (map market added) [fst avs].
Proof.
  unfold visit.
  destruct (dune (calls st) (snd avs) default_tier) as [[column|]|e].
  - exists 0%nat, 1%nat, [result_of (fst avs) column].
    cbn. repeat split; try lia. repeat constructor.
  - exists 0%nat, 1%nat, []. cbn. rewrite app_nil_r.
    repeat split; try lia. repeat constructor.
  - destruct (contains "429"%string e).
    + destruct (dune _ (snd avs) large_tier) as [[column|]|e2].
      * exists 1%nat, 1%nat, [result_of (fst avs) column].
        cbn. repeat split; try lia. repeat constructor.
      * exists 1%nat, 1%nat, []. cbn. rewrite app_nil_r.
        repeat split; try lia. repeat constructor.
      * exists 1%nat, 0%nat, []. cbn. rewrite app_nil_r.
        repeat split; try lia. repeat constructor.
    + exists 0%nat, 0%nat, []. cbn. rewrite app_nil_r.
      repeat split; try lia. repeat constructor.
Qed.

Lemma subsequence_app {A : Type} (s1 l1 s2 l2 : list A) :
  subsequence s1 l1 -> subsequence s2 l2 -> subsequence (s1 ++ s2) (l1 ++ l2).
Proof.
  induction 1; intros H2; cbn [app]; try constructor; auto.
Qed.

Lemma loop_steps avs : forall st,
  exists (retried got : nat) (added : list avs_result),
    (retried <= length avs)%nat /\ (got <= length avs)%nat /\
    (length added <= got)%nat /\
    calls (fold_left (visit dune) avs st)
    = (calls st + length avs + retried)%nat /\
    slept (fold_left (visit dune) avs st)
    = (slept st + 10 * retried + 3 * got)%nat /\
    all_avs_results (fold_left (visit dune) avs st)
    = all_avs_results st ++ added /\
    subsequence (map market added) (map fst avs).
Proof.
  induction avs as [|a avs IH]; intros st.
  - exists 0%nat, 0%nat, []. cbn. rewrite app_nil_r.
    repeat split; try lia. constructor.
  - cbn [fold_left].
    destruct (visit_step st a) as (r1 & g1 & a1 & R1 & G1 & L1 & C1 & S1 & A1 & Q1).
    destruct (IH (visit dune st a)) as (r2 & g2 & a2 & R2 & G2 & L2 & C2 & S2 & A2 & Q2).
    exists (r1 + r2)%nat, (g1 + g2)%nat, (a1 ++ a2).
    rewrite C2, S2, A2, C1, S1, A1, length_app, map_app, <- app_assoc.
    cbn [length map].
    repeat split; try lia.
    exact (subsequence_app _ _ _ _ Q1 Q2).
Qed.

End AvsLoopFacts.

(** X14.  Each service costs one call to the client, or two; the seconds
    slept are 10 for each second call and 3 for each frame received, of
    which there are at least as many as results and at most as many as
    services. *)
Theorem loop_calls_and_pauses
        (dune : nat -> String.string -> tier -> reply)
        (avs : list (String.string * String.string)) :
  let st := avs_loop dune avs in
  let n := length avs in
  (n <= calls st <= 2 * n)%nat /\
  (10 * (calls st - n) + 3 * length (all_avs_results st) <= slept st)%nat /\
  (slept st <= 10 * (calls st - n) + 3 * n)%nat.
Proof.
  cbv zeta. unfold avs_loop.
  destruct (loop_steps dune avs initial_state)
    as (r & g & a & R & G & L & -> & -> & -> & _).
  cbn [initial_state calls slept all_avs_results app]. lia.
Qed.

(** X15.  The results are in the order of the services, at most one for each. *)
Theorem loop_results_in_order
        (dune : nat -> String.string -> tier -> reply)
        (avs : list (String.string * String.string)) :
  subsequence (map market (all_avs_results (avs_loop dune avs)))
              (map fst avs).
Proof.
  unfold avs_loop.
  destruct (loop_steps dune avs initial_state)
    as (r & g & a & _ & _ & _ & _ & _ & -> & Q).
  exact Q.
Qed.

Section AvsLoopCases.
Variable dune : nat -> String.string -> tier -> reply.

Lemma loop_frames avs : forall st,
  (forall k a, exists column, dune k a default_tier = fetched (Some column)) ->
  all_avs_results (fold_left (visit dune) avs st)
  = all_avs_results st
    ++ map (first_reply_result dune) (combine (seq (calls st) (length avs)) avs)
  /\ calls (fold_left (visit dune) avs st) = (calls st + length avs)%nat
  /\ slept (fold_left (visit dune) avs st) = (slept st + 3 * length avs)%nat.
Proof.
  induction avs as [|a avs IH]; intros st H.
  - cbn. rewrite app_nil_r. repeat split; lia.
  - cbn [fold_left length seq combine map].
    destruct (IH (visit dune st a) H) as (-> & -> & ->).
    unfold visit. destruct (H (calls st) (snd a)) as (column & E).
    rewrite E. cbn [analyse_avs count_call all_avs_results calls slept].
    rewrite <- app_assoc. cbn [app].
    unfold first_reply_result at 2. cbn [fst snd]. rewrite E. cbn [column_of].
    repeat split; lia.
Qed.

Lemma loop_plain_failures avs : forall st,
  (forall k a m, dune k a default_tier = raised m ->
                 contains "429"%string m = false) ->
  calls (fold_left (visit dune) avs st) = (calls st + length avs)%nat /\
  exists got added,
    (got <= length avs)%nat /\ (length added <= got)%nat /\
    slept (fold_left (visit dune) avs st) = (slept st + 3 * got)%nat /\
    all_avs_results (fold_left (visit dune) avs st)
    = all_avs_results st ++ added.
Proof.
  induction avs as [|a avs IH]; intros st H.
  - split; [cbn; lia|]. exists 0%nat, []. cbn. rewrite app_nil_r.
    repeat split; lia.
  - cbn [fold_left length].
    destruct (IH (visit dune st a) H) as (-> & g & ad & G & L & -> & ->).
    unfold visit.
    destruct (dune (calls st) (snd a) default_tier) as [[column|]|e] eqn:E.
    + split; [cbn; lia|].
      exists (S g), (result_of (fst a) column :: ad).
      cbn. rewrite <- app_assoc. repeat split; lia.
    + split; [cbn; lia|]. exists (S g), ad. cbn. repeat split; lia.
    + rewrite (H _ _ _ E). split; [cbn; lia|].
      exists g, ad. cbn. repeat split; lia.
Qed.

Lemma loop_limited avs : forall st,
  (forall k a, exists m, dune k a default_tier = raised m /\
                         contains "429"%string m = true) ->
  (forall k a, exists m, dune k a large_tier = raised m) ->
  all_avs_results (fold_left (visit dune) avs st) = all_avs_results st /\
  calls (fold_left (visit dune) avs st) = (calls st + 2 * length avs)%nat /\
  slept (fold_left (visit dune) avs st) = (slept st + 10 * length avs)%nat.
Proof.
  induction avs as [|a avs IH]; intros st H1 H2.
  - cbn. repeat split; lia.
  - cbn [fold_left length].
    destruct (IH (visit dune st a) H1 H2) as (-> & -> & ->).
    unfold visit. destruct (H1 (calls st) (snd a)) as (m & -> & ->).
    destruct (H2 (calls (sleep 10 (count_call st))) (snd a)) as (m2 & ->).
    cbn. repeat split; lia.
Qed.

End AvsLoopCases.

(** X16.  When every first call is answered with a frame that has the column,
    there is one result for each service, in order, computed from the
    frame fetched for it; one call and a pause of 3 seconds each. *)
Theorem loop_without_failure
        (dune : nat -> String.string -> tier -> reply)
        (avs : list (String.string * String.string)) :
  (forall k a, exists column, dune k a default_tier = fetched (Some column)) ->
  all_avs_results (avs_loop dune avs)
  = map (first_reply_result dune) (combine (seq 0 (length avs)) avs) /\
  map market (all_avs_results (avs_loop dune avs)) = map fst avs /\
  calls (avs_loop dune avs) = length avs /\
  slept (avs_loop dune avs) = (3 * length avs)%nat.
Proof.
  intros H. unfold avs_loop.
  destruct (loop_frames dune avs initial_state H) as (-> & -> & ->).
  cbn [initial_state all_avs_results calls slept app].
  repeat split; try lia.
  rewrite map_map. cbn [first_reply_result result_of market].
  generalize 0%nat. induction avs as [|a avs IH]; intros k; [reflexivity|].
  cbn [length seq combine map fst snd]. rewrite IH. reflexivity.
Qed.

Lemma loop_without_failure_witness :
  (forall k a, exists column,
      always_frame k a default_tier = fetched (Some column)) /\
  all_avs_results (avs_loop always_frame sample_services)
  = map (first_reply_result always_frame)
        (combine (seq 0 (length sample_services)) sample_services) /\
  map market (all_avs_results (avs_loop always_frame sample_services))
  = map fst sample_services /\
  calls (avs_loop always_frame sample_services) = length sample_services /\
  slept (avs_loop always_frame sample_services)
  = (3 * length sample_services)%nat.
Proof.
  assert (forall k a, exists column,
             always_frame k a default_tier = fetched (Some column)) as H
      by (intros k a; eexists; reflexivity).
  split; [exact H|].
  exact (loop_without_failure always_frame sample_services H).
Defined.

(** X17.  A failure whose message does not contain "429" is not retried: the
    loop makes one call for each service and never pauses for 10
    seconds. *)
Theorem loop_retries_only_rate_limits
        (dune : nat -> String.string -> tier -> reply)
        (avs : list (String.string * String.string)) :
  (forall k a m, dune k a default_tier = raised m ->
                 contains "429"%string m = false) ->
  calls (avs_loop dune avs) = length avs /\
  (3 * length (all_avs_results (avs_loop dune avs))
   <= slept (avs_loop dune avs) <= 3 * length avs)%nat.
Proof.
  intros H. unfold avs_loop.
  destruct (loop_plain_failures dune avs initial_state H)
    as (-> & g & ad & G & L & -> & ->).
  cbn [initial_state all_avs_results calls slept app]. lia.
Qed.

Lemma loop_retries_only_rate_limits_witness :
  (forall k a m, always_down k a default_tier = raised m ->
                 contains "429"%string m = false) /\
  calls (avs_loop always_down sample_services) = length sample_services /\
  (3 * length (all_avs_results (avs_loop always_down sample_services))
   <= slept (avs_loop always_down sample_services)
   <= 3 * length sample_services)%nat.
Proof.
  assert (forall k a m, always_down k a default_tier = raised m ->
                        contains "429"%string m = false) as H.
  { intros k a m E. injection E as <-. reflexivity. }
  split; [exact H|].
  exact (loop_retries_only_rate_limits always_down sample_services H).
Defined.

(** X18.  When every first call is rate limited and every second call fails
    too, there is no result, each service costs two calls and 10
    seconds, and the pause of 3 seconds is never taken. *)
Theorem loop_all_rate_limited
        (dune : nat -> String.string -> tier -> reply)
        (avs : list (String.string * String.string)) :
  (forall k a, exists m, dune k a default_tier = raised m /\
                         contains "429"%string m = true) ->
  (forall k a, exists m, dune k a large_tier = raised m) ->
  all_avs_results (avs_loop dune avs) = [] /\
  calls (avs_loop dune avs) = (2 * length avs)%nat /\
  slept (avs_loop dune avs) = (10 * length avs)%nat.
Proof.
  intros H1 H2. unfold avs_loop.
  destruct (loop_limited dune avs initial_state H1 H2) as (-> & -> & ->).
  cbn [initial_state all_avs_results calls slept]. repeat split; lia.
Qed.

Lemma loop_all_rate_limited_witness :
  (forall k a, exists m, always_limited k a default_tier = raised m /\
                         contains "429"%string m = true) /\
  (forall k a, exists m, always_limited k a large_tier = raised m) /\
  all_avs_results (avs_loop always_limited sample_services) = [] /\
  calls (avs_loop always_limited sample_services)
  = (2 * length sample_services)%nat /\
  slept (avs_loop always_limited sample_services)
  = (10 * length sample_services)%nat.
Proof.
  assert (forall k a, exists m, always_limited k a default_tier = raised m /\
                                contains "429"%string m = true) as H1
      by (intros k a; eexists; split; reflexivity).
  assert (forall k a, exists m, always_limited k a large_tier = raised m)
    as H2 by (intros k a; eexists; reflexivity).
  split; [exact H1|]. split; [exact H2|].
  exact (loop_all_rate_limited always_limited sample_services H1 H2).
Defined.
